(** * A content-publishing API: token codec, access gate, content pipeline

    Shallow embedding of
      - [server/src/utils/auth.js]       (token issue / verify / refresh),
      - [server/src/middleware/auth.js]  (authenticate / authorize),
      - [server/src/models/Post.js]      (pre-save hooks, counters),
    and the properties stated about them.

    Conventions.
      - A JavaScript string is a [string]; a character of it stands for a
        code unit below 256.
      - A JavaScript number that the code uses as a count or a clock reading
        is a [Z].
      - A property that is [undefined], and a [null] returned in place of
        an object, are [None]; a thrown [Error(msg)] is [Throw msg].
      - The packages that the code calls ([jsonwebtoken], [slugify]) and
        the [User] model are interfaces; the statements hold for every
        implementation of them. *)

From stdpp Require Import gmap strings list pretty.
From Stdlib Require Import ZArith Lia Ascii.

Local Open Scope Z_scope.

(** ** Exceptions *)

Inductive result (A : Type) : Type :=
| Ok (a : A)
| Throw (msg : string).
Arguments Ok {A} a.
Arguments Throw {A} msg.

#[global] Instance result_ret : MRet result := λ A a, Ok a.

#[global] Instance result_bind : MBind result := λ A B k r,
  match r with
  | Ok a => k a
  | Throw m => Throw m
  end.

(** [try { return body } catch (error) { return handler }] *)
Definition try_catch {A} (body : result A) (handler : string → A) : A :=
  match body with
  | Ok a => a
  | Throw m => handler m
  end.

(** [try { return body } catch (error) { throw new Error(msg) }] *)
Definition try_rethrow {A} (body : result A) (msg : string) : result A :=
  match body with
  | Ok a => Ok a
  | Throw _ => Throw msg
  end.

(** A loop whose body may throw: the first failure ends it. *)
Fixpoint fold_result {A B} (f : A → B → result A) (a : A) (l : list B)
  : result A :=
  match l with
  | [] => Ok a
  | b :: l' => a' ← f a b; fold_result f a' l'
  end.

(** ** JavaScript strings *)

Module JsString.

(** [s.split(sep)] for a one-character separator. *)
Fixpoint split (sep : ascii) (s : string) : list string :=
  match s with
  | EmptyString => [EmptyString]
  | String c s' =>
      if Ascii.eqb c sep then EmptyString :: split sep s'
      else match split sep s' with
           | seg :: rest => String c seg :: rest
           | [] => [String c EmptyString]
           end
  end.

(** [parts.join(sep)] *)
Fixpoint join (sep : string) (parts : list string) : string :=
  match parts with
  | [] => ""
  | [p] => p
  | p :: rest => p +:+ sep +:+ join sep rest
  end.

(** The character [c] occurs in [s]. *)
Fixpoint has (c : ascii) (s : string) : bool :=
  match s with
  | EmptyString => false
  | String d s' => Ascii.eqb d c || has c s'
  end.

(** [\s] of a regular expression, on code units below 256: tab, line
    feed, vertical tab, form feed, carriage return, space, no-break
    space. *)
Definition is_space (c : ascii) : bool :=
  let n := N_of_ascii c in
  ((9 <=? n) && (n <=? 13) || (n =? 32) || (n =? 160))%N.

(** [s.split(/\s+/)]: the pieces between maximal runs of white space;
    [cur] is the piece being read, [in_ws] tells that the last character
    read closed a piece. *)
Fixpoint split_ws_go (s : string) (cur : string) (in_ws : bool) : list string :=
  match s with
  | EmptyString => [cur]
  | String c s' =>
      if is_space c then
        if in_ws then split_ws_go s' "" true
        else cur :: split_ws_go s' "" true
      else split_ws_go s' (cur +:+ String c "") false
  end.

Definition split_ws (s : string) : list string := split_ws_go s "" false.

Fixpoint drop_space (s : string) : string :=
  match s with
  | EmptyString => ""
  | String c s' => if is_space c then drop_space s' else s
  end.

(** [s.trimEnd()]: a character is dropped when it is white space and
    nothing but white space follows it. *)
Fixpoint trimEnd (s : string) : string :=
  match s with
  | EmptyString => ""
  | String c s' =>
      match trimEnd s' with
      | EmptyString => if is_space c then "" else String c ""
      | rest => String c rest
      end
  end.

(** [s.trim()] *)
Definition trim (s : string) : string := trimEnd (drop_space s).

(** [s.substring(0, n)] *)
Definition prefix (n : nat) (s : string) : string := String.substring 0 n s.

Definition is_upper (c : ascii) : bool :=
  let n := N_of_ascii c in
  ((65 <=? n) && (n <=? 90)
   || (192 <=? n) && (n <=? 222) && negb (n =? 215))%N.

Definition lower_char (c : ascii) : ascii :=
  if is_upper c then ascii_of_N (N_of_ascii c + 32) else c.

(** [s.toLowerCase()] *)
Fixpoint toLowerCase (s : string) : string :=
  match s with
  | EmptyString => ""
  | String c s' => String (lower_char c) (toLowerCase s')
  end.

(** A value used as a condition: the empty string is falsy. *)
Definition truthy (s : string) : bool :=
  match s with EmptyString => false | _ => true end.

End JsString.

(** ** TokenCodec: [utils/auth.js] *)

Definition MISSING_HEADER : string := "Authorization header missing".
Definition MALFORMED_HEADER : string := "Invalid authorization header format".

Definition extractTokenFromHeader (authHeader : option string) : result string :=
  match authHeader with
  | None => Throw MISSING_HEADER
  | Some h =>
      if negb (JsString.truthy h) then Throw MISSING_HEADER
      else
        let parts := JsString.split " "%char h in
        match parts with
        | [p0; p1] =>
            if negb (String.eqb p0 "Bearer") then Throw MALFORMED_HEADER
            else Ok p1
        | _ => Throw MALFORMED_HEADER
        end
  end.

(** [h] is the two-segment form [Bearer <t>]: the scheme, one space, and a
    segment [t] holding no further space. *)
Definition bearer_form (h : option string) (t : string) : Prop :=
  h = Some ("Bearer " +:+ t) ∧ JsString.has " "%char t = false.

(** ** JSON values and objects *)

(** A claim value. Claims are JSON scalars; a number is an integer. *)
Inductive jsval : Type :=
| JNull
| JBool (b : bool)
| JNum (n : Z)
| JStr (s : string).

#[global] Instance jsval_eq_dec : EqDecision jsval.
Proof. solve_decision. Defined.

Definition jsval_to_sum (v : jsval) : unit + bool + Z + string :=
  match v with
  | JNull => inl (inl (inl tt))
  | JBool b => inl (inl (inr b))
  | JNum n => inl (inr n)
  | JStr s => inr s
  end.

Definition jsval_of_sum (x : unit + bool + Z + string) : jsval :=
  match x with
  | inl (inl (inl _)) => JNull
  | inl (inl (inr b)) => JBool b
  | inl (inr n) => JNum n
  | inr s => JStr s
  end.

#[global] Instance jsval_countable : Countable jsval.
Proof.
  apply (inj_countable' jsval_to_sum jsval_of_sum).
  by intros [].
Defined.

(** A JavaScript object with scalar properties; a property that is absent
    reads as [undefined], that is [None]. *)
Abbreviation obj := (gmap string jsval).

(** [{ ..., k: v }] in an object literal that is then serialised: a
    property whose value is [undefined] is left out. *)
Definition set_prop (k : string) (v : option jsval) (o : obj) : obj :=
  match v with
  | Some x => <[k := x]> o
  | None => o
  end.

(** The built-ins of the language that the code relies on and that are
    not spelled out here. *)
Class EcmaScript := {
  (** [Number(s)] for a string; [None] is [NaN]. *)
  StringToNumber : string → option Z
}.

(** [!!v]: [undefined], [null], [false], [0] and the empty string are falsy. *)
Definition truthy (v : option jsval) : bool :=
  match v with
  | None | Some JNull => false
  | Some (JBool b) => b
  | Some (JNum n) => negb (n =? 0)
  | Some (JStr s) => JsString.truthy s
  end.

(** [Number(v)]; [None] is [NaN]. *)
Definition ToNumber `{EcmaScript} (v : option jsval) : option Z :=
  match v with
  | None => None
  | Some JNull => Some 0
  | Some (JBool b) => Some (if b then 1 else 0)
  | Some (JNum n) => Some n
  | Some (JStr s) => StringToNumber s
  end.

(** [v < n] for a number [n]; a comparison with [NaN] is false. *)
Definition js_lt `{EcmaScript} (v : option jsval) (n : Z) : bool :=
  match ToNumber v with
  | Some k => k <? n
  | None => false
  end.

(** ** The [jsonwebtoken] package, as the code uses it *)

Record sign_options := {
  expiresIn : string;
  issuer : string;
  audience : string
}.

(** Every operation that reads the clock takes the reading of
    [Date.now()], in milliseconds, as [clock]. *)
Class Jwt := {
  (** [jwt.sign(payload, secret, options)] *)
  jwt_sign : obj → string → sign_options → Z → result string;
  (** [jwt.verify(token, secret)] *)
  jwt_verify : string → string → Z → result obj;
  (** [jwt.decode(token)]; [Ok None] is [null] *)
  jwt_decode : string → result (option obj);
  (** the seconds that a time span such as ['7d'] stands for *)
  timespan : string → option Z
}.

(** [Math.floor(Date.now() / 1000)] *)
Definition seconds (clock : Z) : Z := clock / 1000.

(** The registered claims, which [jwt.sign] writes itself. *)
Definition registered : list string :=
  ["iat"; "exp"; "nbf"; "aud"; "iss"; "sub"; "jti"].

Definition unregistered (payload : obj) : Prop :=
  Forall (λ k, payload !! k = None) registered.

(** The payload that [jwt.sign] puts into the token. *)
Definition stamped (payload : obj) (o : sign_options) (clock ttl : Z) : obj :=
  <["iat" := JNum (seconds clock)]>
    (<["exp" := JNum (seconds clock + ttl)]>
       (<["aud" := JStr (audience o)]>
          (<["iss" := JStr (issuer o)]> payload))).

(** What the package promises about a token that it signed from a
    payload without registered claims. *)
Class JwtLaws `{Jwt} : Prop := {
  sign_total payload secret o clock ttl :
    secret ≠ "" → timespan (expiresIn o) = Some ttl → unregistered payload →
    ∃ token, jwt_sign payload secret o clock = Ok token;
  decode_sign payload secret o clock ttl token :
    jwt_sign payload secret o clock = Ok token →
    timespan (expiresIn o) = Some ttl → unregistered payload →
    jwt_decode token = Ok (Some (stamped payload o clock ttl));
  verify_sign payload secret o clock ttl token clock' :
    jwt_sign payload secret o clock = Ok token →
    timespan (expiresIn o) = Some ttl → unregistered payload →
    seconds clock' < seconds clock + ttl →
    jwt_verify token secret clock' = Ok (stamped payload o clock ttl);
  verify_expired payload secret o clock ttl token clock' :
    jwt_sign payload secret o clock = Ok token →
    timespan (expiresIn o) = Some ttl → unregistered payload →
    seconds clock + ttl ≤ seconds clock' →
    ∃ msg, jwt_verify token secret clock' = Throw msg
}.

(** ** Configuration *)

(** [process.env] *)
Class Env := getenv : string → option string.

(** [value || fallback] on strings *)
Definition or_else (value : option string) (fallback : string) : string :=
  match value with
  | Some s => if JsString.truthy s then s else fallback
  | None => fallback
  end.

Definition JWT_SECRET `{Env} : string :=
  or_else (getenv "JWT_SECRET") "your-secret-key".

Definition JWT_EXPIRES_IN `{Env} : string :=
  or_else (getenv "JWT_EXPIRES_IN") "7d".

(** ** TokenCodec, continued *)

Section TokenCodec.
Context `{Jwt} `{Env} `{EcmaScript}.

Definition generateToken (user : obj) (clock : Z) : result string :=
  try_rethrow
    (let payload : obj :=
       set_prop "id" (user !! "_id")
         (set_prop "email" (user !! "email")
            (set_prop "username" (user !! "username")
               (set_prop "role" (user !! "role") ∅))) in
     token ← jwt_sign payload JWT_SECRET
               {| expiresIn := JWT_EXPIRES_IN;
                  issuer := "mern-testing-app";
                  audience := "mern-testing-users" |} clock;
     Ok token)
    "Token generation failed".

Definition verifyToken (token : string) (clock : Z) : result obj :=
  try_rethrow
    (decoded ← jwt_verify token JWT_SECRET clock;
     Ok decoded)
    "Invalid token".

Definition decodeToken (token : string) : result (option obj) :=
  try_rethrow
    (decoded ← jwt_decode token;
     Ok decoded)
    "Token decoding failed".

Definition isTokenExpired (token : string) (clock : Z) : bool :=
  try_catch
    (decoded ← jwt_decode token;
     match decoded with
     | None => Ok true
     | Some d =>
         if negb (truthy (d !! "exp")) then Ok true
         else
           let currentTime := seconds clock in
           Ok (js_lt (d !! "exp") currentTime)
     end)
    (λ _, true).

Definition refreshToken (token : string) (clock : Z) : result string :=
  try_rethrow
    (decoded ← jwt_decode token;
     match decoded with
     | None => Throw "Invalid token"
     | Some d =>
         (* const { iat, exp, aud, iss, ...payload } = decoded *)
         let payload : obj :=
           delete "iss" (delete "aud" (delete "exp" (delete "iat" d))) in
         generateToken payload clock
     end)
    "Token refresh failed".

End TokenCodec.

(** ** AccessGate: [middleware/auth.js] *)

(** The [User] model: [User.findById(id)] resolves to a document or to
    [null], or rejects. *)
Class UserModel := User_findById : option jsval → result (option obj).

Record request := {
  header : string → option string;
  user : option obj;
  token : option string
}.

(** What a middleware does with a request: it hands it on with [next()],
    or it answers [res.status(code).json({ error })]. *)
Inductive outcome : Type :=
| Next (req : request)
| Respond (status : Z) (error : string).

Section AccessGate.
Context `{Jwt} `{Env} `{UserModel}.

Definition authenticate (req : request) (clock : Z) : outcome :=
  try_catch
    (let authHeader := header req "Authorization" in
     token ← extractTokenFromHeader authHeader;
     decoded ← verifyToken token clock;
     found ← User_findById (decoded !! "id");
     match found with
     | None => Ok (Respond 401 "User not found")
     | Some user =>
         if negb (truthy (user !! "isActive")) then
           Ok (Respond 401 "User account is deactivated")
         else
           Ok (Next {| header := header req;
                       user := Some user;
                       token := Some token |})
     end)
    (λ _, Respond 401 "Authentication failed").

End AccessGate.

(** The argument of [authorize]: one role, or an array of roles. *)
Inductive roles_arg : Type :=
| Role (r : string)
| Roles (l : list string).

(** [requiredRoles.includes(v)] on an array of strings *)
Definition includes (l : list string) (v : option jsval) : bool :=
  match v with
  | Some (JStr r) => bool_decide (r ∈ l)
  | _ => false
  end.

(** [authorize(roles = [])]: [None] is a call without argument. *)
Definition authorize (roles : option roles_arg) (req : request) : outcome :=
  let roles := default (Roles []) roles in
  match user req with
  | None => Respond 401 "Authentication required"
  | Some u =>
      let requiredRoles :=
        match roles with
        | Roles l => l
        | Role r => [r]
        end in
      if negb (includes requiredRoles (u !! "role")) then
        Respond 403 "Insufficient permissions"
      else Next req
  end.

Definition requireAdmin : request → outcome := authorize (Some (Role "admin")).

Definition requireModerator : request → outcome :=
  authorize (Some (Roles ["admin"; "moderator"])).

(** ** The [slugify] package, as the code calls it *)

(** The package's table of replacements, [charMap]. *)
Class SlugifyData := charMap : ascii → option string.

Module Slugify.

(** The characters of the [remove] option, by code unit: asterisk,
    plus, tilde, full stop, both parentheses, apostrophe, double quote,
    exclamation mark, colon, at sign. *)
Definition removed (c : ascii) : bool :=
  bool_decide (N_of_ascii c ∈ [42; 43; 126; 46; 40; 41; 39; 34; 33; 58; 64]%N).

(** [[A-Za-z0-9]] *)
Definition is_alnum (c : ascii) : bool :=
  let n := N_of_ascii c in
  ((65 <=? n) && (n <=? 90) || (97 <=? n) && (n <=? 122)
   || (48 <=? n) && (n <=? 57))%N.

(** The characters of [s] that satisfy [f]. *)
Fixpoint keep (f : ascii → bool) (s : string) : string :=
  match s with
  | EmptyString => ""
  | String c s' => if f c then String c (keep f s') else keep f s'
  end.

(** The [reduce] over the characters: each one is replaced through
    [charMap], a replacement equal to ['-'] becomes a space, and the
    characters of [remove] are dropped from it. *)
Fixpoint replace_chars `{SlugifyData} (s : string) : string :=
  match s with
  | EmptyString => ""
  | String ch s' =>
      let appendChar := default (String ch "") (charMap ch) in
      let appendChar := if String.eqb appendChar "-" then " " else appendChar in
      keep (λ c, negb (removed c)) appendChar +:+ replace_chars s'
  end.

(** [slug.replace(/\s+/g, '-')]; [in_ws] tells that the run of white
    space being read has been replaced already. *)
Fixpoint hyphenate (s : string) (in_ws : bool) : string :=
  match s with
  | EmptyString => ""
  | String c s' =>
      if JsString.is_space c then
        if in_ws then hyphenate s' true else String "-" (hyphenate s' true)
      else String c (hyphenate s' false)
  end.

(** [slugify(s, { lower: true, strict: true, remove })] *)
Definition slugify `{SlugifyData} (s : string) : string :=
  let slug := replace_chars s in
  let slug := keep (λ c, is_alnum c || JsString.is_space c) slug in
  let slug := JsString.trim slug in
  let slug := hyphenate slug false in
  JsString.toLowerCase slug.

End Slugify.

(** ** ContentPipeline: [models/Post.js] *)

Inductive post_status : Type := draft | published | archived.

#[global] Instance post_status_eq_dec : EqDecision post_status.
Proof. solve_decision. Defined.

(** A document of the [Post] model: the paths that the hooks and the
    methods read or write, whether it was never stored ([isNew]), and the
    paths assigned since it was last stored. A date is its number of
    milliseconds since the epoch. *)
Record post := {
  _id : string;
  title : string;
  content : string;
  slug : option string;
  excerpt : option string;
  status : post_status;
  isPublished : bool;
  publishedAt : option Z;
  viewCount : Z;
  likeCount : Z;
  commentCount : Z;
  readingTime : Z;
  isNew : bool;
  modifiedPaths : gset string
}.

Definition isModified (path : string) (p : post) : bool :=
  bool_decide (path ∈ modifiedPaths p).

(** An assignment marks its path as modified when the document is new or
    the value changes. This is the rule of Mongoose for a new document
    and for a value that differs from the one of the last save; on a
    saved document, assigning that value again takes the mark back,
    which is left out here. *)
Definition mark (path : string) (changed : bool) (p : post) : gset string :=
  if isNew p || changed then {[path]} ∪ modifiedPaths p else modifiedPaths p.

Definition assign_title (v : string) (p : post) : post :=
  {| _id := _id p;
     title := v;
     content := content p;
     slug := slug p;
     excerpt := excerpt p;
     status := status p;
     isPublished := isPublished p;
     publishedAt := publishedAt p;
     viewCount := viewCount p;
     likeCount := likeCount p;
     commentCount := commentCount p;
     readingTime := readingTime p;
     isNew := isNew p;
     modifiedPaths := mark "title" (bool_decide (title p ≠ v)) p |}.

Definition assign_content (v : string) (p : post) : post :=
  {| _id := _id p;
     title := title p;
     content := v;
     slug := slug p;
     excerpt := excerpt p;
     status := status p;
     isPublished := isPublished p;
     publishedAt := publishedAt p;
     viewCount := viewCount p;
     likeCount := likeCount p;
     commentCount := commentCount p;
     readingTime := readingTime p;
     isNew := isNew p;
     modifiedPaths := mark "content" (bool_decide (content p ≠ v)) p |}.

Definition assign_slug (v : option string) (p : post) : post :=
  {| _id := _id p;
     title := title p;
     content := content p;
     slug := v;
     excerpt := excerpt p;
     status := status p;
     isPublished := isPublished p;
     publishedAt := publishedAt p;
     viewCount := viewCount p;
     likeCount := likeCount p;
     commentCount := commentCount p;
     readingTime := readingTime p;
     isNew := isNew p;
     modifiedPaths := mark "slug" (bool_decide (slug p ≠ v)) p |}.

Definition assign_excerpt (v : option string) (p : post) : post :=
  {| _id := _id p;
     title := title p;
     content := content p;
     slug := slug p;
     excerpt := v;
     status := status p;
     isPublished := isPublished p;
     publishedAt := publishedAt p;
     viewCount := viewCount p;
     likeCount := likeCount p;
     commentCount := commentCount p;
     readingTime := readingTime p;
     isNew := isNew p;
     modifiedPaths := mark "excerpt" (bool_decide (excerpt p ≠ v)) p |}.

Definition assign_status (v : post_status) (p : post) : post :=
  {| _id := _id p;
     title := title p;
     content := content p;
     slug := slug p;
     excerpt := excerpt p;
     status := v;
     isPublished := isPublished p;
     publishedAt := publishedAt p;
     viewCount := viewCount p;
     likeCount := likeCount p;
     commentCount := commentCount p;
     readingTime := readingTime p;
     isNew := isNew p;
     modifiedPaths := mark "status" (bool_decide (status p ≠ v)) p |}.

Definition assign_isPublished (v : bool) (p : post) : post :=
  {| _id := _id p;
     title := title p;
     content := content p;
     slug := slug p;
     excerpt := excerpt p;
     status := status p;
     isPublished := v;
     publishedAt := publishedAt p;
     viewCount := viewCount p;
     likeCount := likeCount p;
     commentCount := commentCount p;
     readingTime := readingTime p;
     isNew := isNew p;
     modifiedPaths := mark "isPublished" (bool_decide (isPublished p ≠ v)) p |}.

Definition assign_publishedAt (v : option Z) (p : post) : post :=
  {| _id := _id p;
     title := title p;
     content := content p;
     slug := slug p;
     excerpt := excerpt p;
     status := status p;
     isPublished := isPublished p;
     publishedAt := v;
     viewCount := viewCount p;
     likeCount := likeCount p;
     commentCount := commentCount p;
     readingTime := readingTime p;
     isNew := isNew p;
     modifiedPaths := mark "publishedAt" (bool_decide (publishedAt p ≠ v)) p |}.

Definition assign_viewCount (v : Z) (p : post) : post :=
  {| _id := _id p;
     title := title p;
     content := content p;
     slug := slug p;
     excerpt := excerpt p;
     status := status p;
     isPublished := isPublished p;
     publishedAt := publishedAt p;
     viewCount := v;
     likeCount := likeCount p;
     commentCount := commentCount p;
     readingTime := readingTime p;
     isNew := isNew p;
     modifiedPaths := mark "viewCount" (bool_decide (viewCount p ≠ v)) p |}.

Definition assign_likeCount (v : Z) (p : post) : post :=
  {| _id := _id p;
     title := title p;
     content := content p;
     slug := slug p;
     excerpt := excerpt p;
     status := status p;
     isPublished := isPublished p;
     publishedAt := publishedAt p;
     viewCount := viewCount p;
     likeCount := v;
     commentCount := commentCount p;
     readingTime := readingTime p;
     isNew := isNew p;
     modifiedPaths := mark "likeCount" (bool_decide (likeCount p ≠ v)) p |}.

Definition assign_commentCount (v : Z) (p : post) : post :=
  {| _id := _id p;
     title := title p;
     content := content p;
     slug := slug p;
     excerpt := excerpt p;
     status := status p;
     isPublished := isPublished p;
     publishedAt := publishedAt p;
     viewCount := viewCount p;
     likeCount := likeCount p;
     commentCount := v;
     readingTime := readingTime p;
     isNew := isNew p;
     modifiedPaths := mark "commentCount" (bool_decide (commentCount p ≠ v)) p |}.

Definition assign_readingTime (v : Z) (p : post) : post :=
  {| _id := _id p;
     title := title p;
     content := content p;
     slug := slug p;
     excerpt := excerpt p;
     status := status p;
     isPublished := isPublished p;
     publishedAt := publishedAt p;
     viewCount := viewCount p;
     likeCount := likeCount p;
     commentCount := commentCount p;
     readingTime := v;
     isNew := isNew p;
     modifiedPaths := mark "readingTime" (bool_decide (readingTime p ≠ v)) p |}.

(** The document once written to the collection. *)
Definition persisted (p : post) : post :=
  {| _id := _id p;
     title := title p;
     content := content p;
     slug := slug p;
     excerpt := excerpt p;
     status := status p;
     isPublished := isPublished p;
     publishedAt := publishedAt p;
     viewCount := viewCount p;
     likeCount := likeCount p;
     commentCount := commentCount p;
     readingTime := readingTime p;
     isNew := false;
     modifiedPaths := ∅ |}.

(** The setters that the schema declares for [slug]:
    [lowercase: true, trim: true]. *)
Definition slug_setter (s : string) : string :=
  JsString.toLowerCase (JsString.trim s).

(** [Math.ceil(n / d)] for a positive [d] *)
Definition ceil_div (n d : Z) : Z := - ((- n) / d).

(** The number nearest to the integer [z], ties to the even significand:
    what an arithmetic operation with the exact result [z] returns. Every
    integer below [2^53] in absolute value is a number; above, 53 bits are
    kept. *)
Definition double (z : Z) : Z :=
  let m := Z.abs z in
  if m <? 2 ^ 53 then z
  else
    let ulp := 2 ^ (Z.log2 m - 52) in
    let q := m / ulp in
    let r := m mod ulp in
    let up :=
      if 2 * r <? ulp then false
      else if ulp <? 2 * r then true
      else Z.odd q in
    Z.sgn z * ((if up then q + 1 else q) * ulp).

(** [a + b] and [a - b] on numbers that are integers *)
Definition js_add (a b : Z) : Z := double (a + b).
Definition js_sub (a b : Z) : Z := double (a - b).

(** [`${slug}`]; an [undefined] slug prints as the word. *)
Definition print_slug (s : option string) : string := default "undefined" s.

(** [!!this.slug] *)
Definition has_text (s : option string) : bool :=
  match s with
  | Some t => JsString.truthy t
  | None => false
  end.

(** [Post.findOne({ slug, _id: { $ne: id } })] on the collection [db]; a
    filter on an [undefined] slug matches the documents that have none. *)
Definition findOne_slug_other (db : list post) (s : option string) (id : string)
  : option post :=
  List.find (λ q, bool_decide (slug q = s ∧ _id q ≠ id)) db.

(** Writing a document: it replaces the stored one of the same [_id], or
    is added. *)
Fixpoint upsert (p : post) (db : list post) : list post :=
  match db with
  | [] => [p]
  | q :: db' => if bool_decide (_id q = _id p) then p :: db' else q :: upsert p db'
  end.

Section ContentPipeline.
Context `{SlugifyData}.

(** The first [pre('save')] hook, block by block. *)

(** Generate slug from title if not provided *)
Definition generate_slug (this : post) : post :=
  if negb (has_text (slug this)) && JsString.truthy (title this) then
    assign_slug (Some (slug_setter (Slugify.slugify (title this)))) this
  else this.

(** Generate excerpt from content if not provided *)
Definition generate_excerpt (this : post) : post :=
  if negb (has_text (excerpt this)) && JsString.truthy (content this) then
    assign_excerpt
      (Some (JsString.trim (JsString.prefix 150 (content this)) +:+ "..."))
      this
  else this.

(** Calculate reading time (average 200 words per minute) *)
Definition calculate_readingTime (this : post) : post :=
  if JsString.truthy (content this) then
    let wordCount := Z.of_nat (length (JsString.split_ws (content this))) in
    assign_readingTime (ceil_div wordCount 200) this
  else this.

(** Set publishedAt when status changes to published; [clock] is the
    reading of [new Date()]. *)
Definition set_publishedAt (clock : Z) (this : post) : post :=
  if isModified "status" this
     && bool_decide (status this = published)
     && bool_decide (publishedAt this = None)
  then assign_isPublished true (assign_publishedAt (Some clock) this)
  else this.

Definition pre_save_derive (clock : Z) (this : post) : post :=
  set_publishedAt clock
    (calculate_readingTime (generate_excerpt (generate_slug this))).

(** The second [pre('save')] hook; [clock] is the reading of
    [Date.now()]. *)
Definition pre_save_unique_slug (db : list post) (clock : Z) (this : post) : post :=
  if isModified "slug" this then
    match findOne_slug_other db (slug this) (_id this) with
    | Some existingPost =>
        assign_slug
          (Some (slug_setter (print_slug (slug this) +:+ "-" +:+ pretty clock)))
          this
    | None => this
    end
  else this.

(** The hooks and the write of [this.save()]: both hooks in the order of
    their registration, then the write of the document. [clocks] holds
    the two clock readings. This is what the call does once validation
    has passed and where the write succeeds; [Document.save] below is the
    call with its validation and its failures. *)
Definition save (db : list post) (clocks : Z * Z) (this : post)
  : post * list post :=
  let this := pre_save_derive (fst clocks) this in
  let this := pre_save_unique_slug db (snd clocks) this in
  let this := persisted this in
  (this, upsert this db).

End ContentPipeline.

(** The validators that the schema declares on the modelled paths; a
    document that fails them is rejected before the hooks run. The other
    validated paths of the schema ([author] and [category], both
    required, [tags], [seoTitle] and [seoDescription]) are neither read
    nor written by the hooks and the methods: a document of the model
    stands for one on which they are valid. *)
Definition validates (p : post) : bool :=
  let len s := Z.of_nat (String.length s) in
  (5 <=? len (title p)) && (len (title p) <=? 200)
  && (10 <=? len (content p)) && (len (content p) <=? 10000)
  && (len (default "" (excerpt p)) <=? 300).

(** [new Post({ _id })]: every other path at its default. *)
Definition fresh (id : string) : post :=
  {| _id := id; title := ""; content := ""; slug := None; excerpt := None;
     status := draft; isPublished := false; publishedAt := None;
     viewCount := 0; likeCount := 0; commentCount := 0; readingTime := 0;
     isNew := true; modifiedPaths := ∅ |}.

(** What a caller assigns to a document between two saves. *)
Inductive edit : Type :=
| SetTitle (s : string)
| SetContent (s : string)
| SetSlug (s : string)
| SetExcerpt (s : string)
| SetStatus (st : post_status)
| SetIsPublished (b : bool)
| SetPublishedAt (d : option Z)
| SetViewCount (n : Z)
| SetLikeCount (n : Z)
| SetCommentCount (n : Z).

Definition apply_edit (p : post) (e : edit) : post :=
  match e with
  | SetTitle s => assign_title (JsString.trim s) p
  | SetContent s => assign_content s p
  | SetSlug s => assign_slug (Some (slug_setter s)) p
  | SetExcerpt s => assign_excerpt (Some s) p
  | SetStatus st => assign_status st p
  | SetIsPublished b => assign_isPublished b p
  | SetPublishedAt d => assign_publishedAt d p
  | SetViewCount n => assign_viewCount n p
  | SetLikeCount n => assign_likeCount n p
  | SetCommentCount n => assign_commentCount n p
  end.

(** The edit writes a path that the publish transition derives. *)
Definition writes_publication (e : edit) : bool :=
  match e with
  | SetIsPublished _ | SetPublishedAt _ => true
  | _ => false
  end.

(** One save of a document: the assignments made since the last one, the
    two clock readings, and the collection as this save finds it. *)
Record save_step := {
  edits : list edit;
  clocks : Z * Z;
  collection : list post
}.

Section Lifecycle.
Context `{SlugifyData}.

Definition save_after (p : post) (st : save_step) : post :=
  fst (save (collection st) (clocks st) (foldl apply_edit p (edits st))).

(** The document after a sequence of saves. *)
Definition run (steps : list save_step) (p : post) : post :=
  foldl save_after p steps.

End Lifecycle.

(** [Post.findById(id)] on the collection [db] *)
Definition findById (db : list post) (id : string) : option post :=
  List.find (λ q, bool_decide (_id q = id)) db.

Module Document.
Section Save.
Context `{SlugifyData}.

(** [this.save()]. Validation comes first, and a document that fails it
    is rejected before any hook runs. Then the hooks run and the document
    is written: a new document is inserted, which fails when the
    collection holds a document with its [_id]; a document that is not
    new is updated, which fails when the collection holds none. *)
Definition save (db : list post) (clocks : Z * Z) (this : post)
  : result (post * list post) :=
  if negb (validates this) then Throw "ValidationError"
  else
    let written := save db clocks this in
    match findById db (_id this) with
    | Some _ =>
        if isNew this then Throw "MongoServerError" else Ok written
    | None =>
        if isNew this then Ok written else Throw "DocumentNotFoundError"
    end.

(** The document after the assignments of a step and its save. *)
Definition save_after (p : post) (st : save_step) : result post :=
  r ← save (collection st) (clocks st) (foldl apply_edit p (edits st));
  Ok (fst r).

(** The document after a sequence of saves that all succeed. *)
Definition run (steps : list save_step) (p : post) : result post :=
  fold_result save_after p steps.

End Save.
End Document.

Section CounterMethods.
Context `{SlugifyData}.

Definition incrementViewCount db clocks (this : post) :=
  Document.save db clocks (assign_viewCount (js_add (viewCount this) 1) this).

Definition incrementLikeCount db clocks (this : post) :=
  Document.save db clocks (assign_likeCount (js_add (likeCount this) 1) this).

Definition decrementLikeCount db clocks (this : post) :=
  let this :=
    if 0 <? likeCount this
    then assign_likeCount (js_sub (likeCount this) 1) this
    else this in
  Document.save db clocks this.

Definition incrementCommentCount db clocks (this : post) :=
  Document.save db clocks
    (assign_commentCount (js_add (commentCount this) 1) this).

Definition decrementCommentCount db clocks (this : post) :=
  let this :=
    if 0 <? commentCount this then
      assign_commentCount (js_sub (commentCount this) 1) this
    else this in
  Document.save db clocks this.

End CounterMethods.

(** ** The vocabulary of the statements *)

(** The options that [generateToken] passes to [jwt.sign]. *)
Definition issue_options `{Env} : sign_options :=
  {| expiresIn := JWT_EXPIRES_IN;
     issuer := "mern-testing-app";
     audience := "mern-testing-users" |}.

(** The payload that [generateToken] builds from its argument. *)
Definition issued_payload (user : obj) : obj :=
  set_prop "id" (user !! "_id")
    (set_prop "email" (user !! "email")
       (set_prop "username" (user !! "username")
          (set_prop "role" (user !! "role") ∅))).

(** The claims that [refreshToken] hands to [generateToken]. *)
Definition stripped (decoded : obj) : obj :=
  delete "iss" (delete "aud" (delete "exp" (delete "iat" decoded))).

Definition AUTHENTICATION_FAILED : outcome := Respond 401 "Authentication failed".

(** Every character of [s] satisfies [f]. *)
Fixpoint all_chars (f : ascii → bool) (s : string) : bool :=
  match s with
  | EmptyString => true
  | String c s' => f c && all_chars f s'
  end.

(** A word: it is not empty and holds no white space. *)
Definition word (w : string) : Prop :=
  w ≠ "" ∧ all_chars (λ c, negb (JsString.is_space c)) w = true.

(** [content.split(/\s+/).length] *)
Definition wordCount (content : string) : Z :=
  Z.of_nat (length (JsString.split_ws content)).

(** The words of a text counted as a reader counts them: its maximal
    runs of characters that are not white space. [in_word] tells that the
    character before [s] belongs to a word. *)
Fixpoint count_words (s : string) (in_word : bool) : nat :=
  match s with
  | EmptyString => 0
  | String c s' =>
      if JsString.is_space c then count_words s' false
      else ((if in_word then 0 else 1) + count_words s' true)%nat
  end.

Definition words (s : string) : Z := Z.of_nat (count_words s false).

(** The first character of [s] is white space. *)
Definition leading_space (s : string) : bool :=
  match s with
  | EmptyString => false
  | String c _ => JsString.is_space c
  end.

(** The character read last is white space; [b] tells so of the
    character before [s]. *)
Fixpoint ends_in_space (s : string) (b : bool) : bool :=
  match s with
  | EmptyString => b
  | String c s' => ends_in_space s' (JsString.is_space c)
  end.

(** The last character of [s] is white space. *)
Definition trailing_space (s : string) : bool := ends_in_space s false.

(** A character that the slug setters leave alone: neither white space
    nor upper case. *)
Definition plain_char (c : ascii) : bool :=
  negb (JsString.is_space c) && negb (JsString.is_upper c).

Definition plain (s : string) : Prop := all_chars plain_char s = true.

(** [q] is [p] except on [paths]: a path outside [paths] holds the same
    value in both and is modified in [q] exactly when it is in [p]. *)
Record frame (paths : list string) (p q : post) : Prop := {
  frame_id : _id q = _id p;
  frame_isNew : isNew q = isNew p;
  frame_title : "title" ∉ paths → title q = title p;
  frame_content : "content" ∉ paths → content q = content p;
  frame_slug : "slug" ∉ paths → slug q = slug p;
  frame_excerpt : "excerpt" ∉ paths → excerpt q = excerpt p;
  frame_status : "status" ∉ paths → status q = status p;
  frame_isPublished : "isPublished" ∉ paths → isPublished q = isPublished p;
  frame_publishedAt : "publishedAt" ∉ paths → publishedAt q = publishedAt p;
  frame_viewCount : "viewCount" ∉ paths → viewCount q = viewCount p;
  frame_likeCount : "likeCount" ∉ paths → likeCount q = likeCount p;
  frame_commentCount : "commentCount" ∉ paths → commentCount q = commentCount p;
  frame_readingTime : "readingTime" ∉ paths → readingTime q = readingTime p;
  frame_isModified k : k ∉ paths → isModified k q = isModified k p
}.

(** The paths that the first hook may write. *)
Definition derived_paths : list string :=
  ["slug"; "excerpt"; "readingTime"; "publishedAt"; "isPublished"].




Section CounterCalls.
Context `{SlugifyData}.


End CounterCalls.

(** The guard of the publish transition. *)
Definition publishes (p : post) : bool :=
  isModified "status" p
  && bool_decide (status p = published)
  && bool_decide (publishedAt p = None).

(** No assignment of the steps writes [publishedAt] or [isPublished]. *)
Definition quiet (steps : list save_step) : Prop :=
  Forall (λ st, Forall (λ e, writes_publication e = false) (edits st)) steps.

(** What holds of a document between two saves, when only the publish
    transition writes [publishedAt] and [isPublished]. *)
Definition publication_inv (p : post) : Prop :=
  (is_Some (publishedAt p) → isPublished p = true)
  ∧ (status p = published →
     isModified "status" p = true ∨ isPublished p = true).

(** ** Reference instances, and the data of the unit tests

    The contract [JwtLaws] is satisfiable: a token of the implementation
    below is a printed number that encodes the stamped payload and the
    signing secret. It serves to run the codec on concrete requests; no
    general statement depends on its wire format. *)
Module Reference.

Fixpoint print_bits (p : positive) : string :=
  match p with
  | xH => ""
  | xO q => String "0" (print_bits q)
  | xI q => String "1" (print_bits q)
  end.

Fixpoint read_bits (s : string) : option positive :=
  match s with
  | EmptyString => Some xH
  | String c s' =>
      q ← read_bits s';
      if Ascii.eqb c "0" then Some (xO q)
      else if Ascii.eqb c "1" then Some (xI q)
      else None
  end.

Definition wire (t : obj * string) : string := print_bits (encode t).

Definition unwire (s : string) : option (obj * string) :=
  p ← read_bits s; decode p.

Definition ref_timespan (s : string) : option Z :=
  if String.eqb s "7d" then Some 604800
  else if String.eqb s "1h" then Some 3600
  else None.

Definition has_registered (payload : obj) : bool :=
  existsb (λ k, bool_decide (is_Some (payload !! k))) registered.

Definition ref_sign (payload : obj) (secret : string) (o : sign_options)
    (clock : Z) : result string :=
  if negb (JsString.truthy secret) then Throw "secretOrPrivateKey must have a value"
  else if has_registered payload then Throw "Bad options"
  else match ref_timespan (expiresIn o) with
       | None => Throw "Bad expiresIn"
       | Some ttl => Ok (wire (stamped payload o clock ttl, secret))
       end.

Definition ref_verify (token secret : string) (clock : Z) : result obj :=
  match unwire token with
  | None => Throw "jwt malformed"
  | Some (payload, key) =>
      if negb (String.eqb key secret) then Throw "invalid signature"
      else match payload !! "exp" with
           | Some (JNum e) =>
               if e <=? seconds clock then Throw "jwt expired" else Ok payload
           | Some _ => Throw "invalid exp value"
           | None => Ok payload
           end
  end.

Definition ref_decode (token : string) : result (option obj) :=
  Ok (fst <$> unwire token).

#[export] Instance ref_jwt : Jwt :=
  {| jwt_sign := ref_sign; jwt_verify := ref_verify;
     jwt_decode := ref_decode; timespan := ref_timespan |}.

(** An environment that sets neither variable. *)
#[export] Instance no_env : Env := λ _, None.

(** [Number(s)] on the strings that occur below: none is numeric. *)
#[export] Instance no_numbers : EcmaScript := {| StringToNumber := λ _, None |}.

(** The replacements of [charMap] for code units below 128. *)
Definition ascii_charMap (c : ascii) : option string :=
  match N_of_ascii c with
  | 36%N => Some "dollar"
  | 37%N => Some "percent"
  | 38%N => Some "and"
  | 60%N => Some "less"
  | 62%N => Some "greater"
  | 124%N => Some "or"
  | _ => None
  end.

#[export] Instance ascii_slugify : SlugifyData := ascii_charMap.

(** The user of the unit tests. *)
Definition mockUser : obj :=
  {[ "_id" := JStr "507f1f77bcf86cd799439011";
     "email" := JStr "test@example.com";
     "username" := JStr "testuser";
     "role" := JStr "user" ]}.

Definition stored (u : obj) (active : bool) : obj :=
  <["isActive" := JBool active]> u.

(** A [User] collection that holds nobody. *)
Definition nobody : UserModel := λ _, Ok None.

(** A [User] collection that holds [mockUser], active or not. *)
Definition only_mockUser (active : bool) : UserModel := λ id,
  if bool_decide (id = Some (JStr "507f1f77bcf86cd799439011"))
  then Ok (Some (stored mockUser active)) else Ok None.

Definition request_with (h : option string) : request :=
  {| header := λ name, if String.eqb name "Authorization" then h else None;
     user := None; token := None |}.

(** The documents and requests of the unit tests. *)

Definition admin : obj := <["role" := JStr "admin"]> mockUser.

(** The token that [generateToken(mockUser)] returns at second 5. *)
Definition issued : string :=
  wire (stamped (issued_payload mockUser) issue_options 5000 604800, JWT_SECRET).

(** [new Post({ _id, title, content })] *)
Definition new_post (id title content : string) : post :=
  foldl apply_edit (fresh id) [SetTitle title; SetContent content].

Definition four_hundred_words : string :=
  JsString.join " " (replicate 400 "word").

Definition once (es : list edit) (at_ : Z) (db : list post) : save_step :=
  {| edits := es; clocks := (at_, at_ + 1); collection := db |}.

(** A post of 400 words. *)
Definition long_post : post := new_post "p1" "Test Post" four_hundred_words.

(** A post of 200 words, with a space after the last one. *)
Definition trailing_space_post : post :=
  new_post "p2" "Test Post" (JsString.join " " (replicate 200 "word") +:+ " ").

(** Two posts whose title holds nothing but characters that [slugify]
    strips. *)
Definition bang1 : post := new_post "a1" "!!!!!" "This is a test post content.".
Definition bang2 : post := new_post "a2" "!!!!!" "This is another post content.".

Definition post1 : post := new_post "a1" "Test Post" "This is a test post content.".
Definition post2 : post := new_post "a2" "Test Post" "This is another test post content.".

(** [post1] as its first save leaves it, and as the save after its
    publication leaves it. *)
Definition saved_draft : post := fst (save [] (1000, 1001) post1).

Definition saved_published : post :=
  fst (save [saved_draft] (2000, 2001) (assign_status published saved_draft)).

(** [saved_draft] with one like, and the collection that holds it. *)
Definition liked_draft : post * list post :=
  save [saved_draft] (2000, 2001) (assign_likeCount 1 saved_draft).

(** A draft is saved, published, then archived; each save finds the
    document as the save before it wrote it. *)
Definition lifecycle : list save_step :=
  [ once [SetTitle "Test Post"; SetContent "This is a test post content."]
      1000 [];
    once [SetStatus published] 2000 [saved_draft];
    once [SetStatus archived] 3000 [saved_published] ].

End Reference.

(** ** Further code of the same files *)

(** *** [utils/auth.js]: the expiry as a date *)

(** A [Date]; its time value is a number of milliseconds, or [NaN]. *)
Inductive js_date : Type :=
| ValidDate (ms : Z)
| InvalidDate.

(** [new Date(ms)]: a time value beyond 8.64e15 in either direction, or
    [NaN], gives an invalid date. *)
Definition new_Date (ms : option Z) : js_date :=
  match ms with
  | Some t => if Z.abs t <=? 8640000000000000 then ValidDate t else InvalidDate
  | None => InvalidDate
  end.

Section TokenExpiration.
Context `{Jwt} `{EcmaScript}.

(** [None] is [null]. *)
Definition getTokenExpiration (token : string) : option js_date :=
  try_catch
    (decoded ← jwt_decode token;
     match decoded with
     | None => Ok None
     | Some d =>
         if negb (truthy (d !! "exp")) then Ok None
         else Ok (Some (new_Date ((λ e, e * 1000) <$> ToNumber (d !! "exp"))))
     end)
    (λ _, None).

End TokenExpiration.

(** *** [middleware/auth.js]: the other middlewares *)

Section OptionalAuth.
Context `{Jwt} `{Env} `{UserModel}.

Definition optionalAuth (req : request) (clock : Z) : outcome :=
  try_catch
    (let authHeader := header req "Authorization" in
     if negb (has_text authHeader) then Ok (Next req)
     else
       token ← extractTokenFromHeader authHeader;
       decoded ← verifyToken token clock;
       found ← User_findById (decoded !! "id");
       match found with
       | Some user =>
           if truthy (user !! "isActive") then
             Ok (Next {| header := header req;
                         user := Some user;
                         token := Some token |})
           else Ok (Next req)
       | None => Ok (Next req)
       end)
    (λ _, Next req).

End OptionalAuth.

(** [v.toString()] of a property; on [undefined] and [null] the call throws. *)
Definition toString (v : option jsval) : result string :=
  match v with
  | Some (JStr s) => Ok s
  | Some (JNum n) => Ok (pretty n)
  | Some (JBool b) => Ok (if b then "true" else "false")
  | Some JNull | None => Throw "TypeError"
  end.

(** A request with what the router and the body parser attach to it:
    [req.params], always an object of strings, and [req.body], which is
    [undefined] when nothing parsed a body. *)
Record routed := {
  base : request;
  params : gmap string string;
  body : option obj
}.

(** [requireSelfOrAdmin(resourceUserIdField = 'userId')]; [None] is a call
    without argument. Reading a property of an [undefined] body throws. *)
Definition requireSelfOrAdmin (resourceUserIdField : option string) (r : routed)
  : result outcome :=
  let resourceUserIdField := default "userId" resourceUserIdField in
  match user (base r) with
  | None => Ok (Respond 401 "Authentication required")
  | Some u =>
      let from_body : result (option jsval) :=
        match body r with
        | Some b => Ok (b !! resourceUserIdField)
        | None => Throw "TypeError"
        end in
      resourceUserId ←
        match params r !! resourceUserIdField with
        | Some s => if JsString.truthy s then Ok (Some (JStr s)) else from_body
        | None => from_body
        end;
      (* Admin can access any resource *)
      if bool_decide (u !! "role" = Some (JStr "admin")) then Ok (Next (base r))
      else
        (* User can only access their own resources *)
        own ← toString (u !! "_id");
        if bool_decide (resourceUserId = Some (JStr own)) then Ok (Next (base r))
        else Ok (Respond 403 "Access denied")
  end.

Definition authRateLimit (req : request) : outcome := Next req.

(** The roles that an argument of [authorize] stands for. *)
Definition role_list (roles : option roles_arg) : list string :=
  match default (Roles []) roles with
  | Roles l => l
  | Role r => [r]
  end.

(** *** [models/Post.js]: the virtual [url] *)

Definition url (this : post) : string := "/posts/" +:+ print_slug (slug this).

(** *** [models/Post.js]: what a save leaves behind *)

(** The edit assigns [slug]. *)
Definition writes_slug (e : edit) : bool :=
  match e with SetSlug _ => true | _ => false end.

Section Settled.
Context `{SlugifyData}.

(** A document as a save leaves it: written, with the derived paths
    that the hooks would give it. *)
Record settled (q : post) : Prop := {
  settled_isNew : isNew q = false;
  settled_paths : modifiedPaths q = ∅;
  settled_slug :
    has_text (slug q) = true ∨ title q = ""
    ∨ slug q = Some (slug_setter (Slugify.slugify (title q)));
  settled_excerpt : has_text (excerpt q) = true ∨ content q = "";
  settled_readingTime :
    content q = "" ∨ readingTime q = ceil_div (wordCount (content q)) 200
}.

End Settled.

(** *** [models/Category.js] *)

Module Category.

(** A document of the [Category] model: the paths that the hooks read or
    write, with the bookkeeping of [post]. *)
Record category := {
  _id : string;
  name : string;
  slug : option string;
  isNew : bool;
  modifiedPaths : gset string
}.

Definition isModified (path : string) (c : category) : bool :=
  bool_decide (path ∈ modifiedPaths c).

Definition assign_slug (v : option string) (c : category) : category :=
  {| _id := _id c;
     name := name c;
     slug := v;
     isNew := isNew c;
     modifiedPaths :=
       if isNew c || bool_decide (slug c ≠ v)
       then {["slug"]} ∪ modifiedPaths c else modifiedPaths c |}.

Definition persisted (c : category) : category :=
  {| _id := _id c; name := name c; slug := slug c;
     isNew := false; modifiedPaths := ∅ |}.

(** [Category.findOne({ slug, _id: { $ne: id } })] *)
Definition findOne_slug_other (db : list category) (s : option string)
    (id : string) : option category :=
  List.find (λ q, bool_decide (slug q = s ∧ _id q ≠ id)) db.

Section Hooks.
Context `{SlugifyData}.

(** Pre-save middleware to generate slug *)
Definition pre_save_slug (this : category) : category :=
  if negb (has_text (slug this)) && JsString.truthy (name this) then
    assign_slug (Some (slug_setter (Slugify.slugify (name this)))) this
  else this.

(** Pre-save middleware to ensure unique slug *)
Definition pre_save_unique_slug (db : list category) (clock : Z)
    (this : category) : category :=
  if isModified "slug" this then
    match findOne_slug_other db (slug this) (_id this) with
    | Some existingCategory =>
        assign_slug
          (Some (slug_setter (print_slug (slug this) +:+ "-" +:+ pretty clock)))
          this
    | None => this
    end
  else this.

(** The document as [save()] writes it. *)
Definition save (db : list category) (clock : Z) (this : category) : category :=
  persisted (pre_save_unique_slug db clock (pre_save_slug this)).

End Hooks.

End Category.

(** *** [middleware/errorHandler.js] *)

Module ErrorHandler.

(** An error as the handler reads it: [keyValue] is [Object.keys] of the
    property, [errors] the [message] of each of its values. *)
Record error := {
  name : option string;
  message : option string;
  stack : option string;
  code : option jsval;
  keyValue : option (list string);
  errors : option (list (option string));
  type : option string;
  status : option jsval;
  statusCode : option Z
}.

(** [res.status(status).json({ error, stack, details })]; [debug] holds
    [stack] and [details] when they are sent. *)
Record response := {
  res_status : Z;
  res_error : string;
  res_debug : option (option string * error)
}.

(** [new Error(message)]; [trace] is the stack that it records. *)
Definition new_Error (msg trace : string) : error :=
  {| name := Some "Error"; message := Some msg; stack := Some trace;
     code := None; keyValue := None; errors := None; type := None;
     status := None; statusCode := None |}.

Definition with_statusCode (n : Z) (e : error) : error :=
  {| name := name e; message := message e; stack := stack e; code := code e;
     keyValue := keyValue e; errors := errors e; type := type e;
     status := status e; statusCode := Some n |}.

(** [a === 'text'] on a property that may be absent *)
Definition is_text (a : option string) (text : string) : bool :=
  bool_decide (a = Some text).

(** [a || b] on numbers: [0] and [undefined] are falsy. *)
Definition or_number (a : option Z) (b : Z) : Z :=
  match a with
  | Some n => if n =? 0 then b else n
  | None => b
  end.

(** [`${field}`] of a key that may be [undefined] *)
Definition print_key (k : option string) : string := default "undefined" k.

(** The working copy [error] of the handler: its [message] and its
    [statusCode]. *)
Definition working : Type := option string * option Z.

Definition errorHandler `{Env} (err : error) : result response :=
  let error : working := (message err, statusCode err) in
  (* Mongoose bad ObjectId *)
  let error : working :=
    if is_text (name err) "CastError"
    then (Some "Resource not found", Some 404) else error in
  (* Mongoose duplicate key *)
  error ←
    (if bool_decide (code err = Some (JNum 11000)) then
       match keyValue err with
       | Some keys =>
           let field := print_key (head keys) in
           Ok (Some (field +:+ " already exists"), Some 400)
       | None => Throw "TypeError"
       end
     else Ok error);
  (* Mongoose validation error *)
  error ←
    (if is_text (name err) "ValidationError" then
       match errors err with
       | Some vals =>
           let message := JsString.join ", " (default "" <$> vals) in
           Ok (Some message, Some 400)
       | None => Throw "TypeError"
       end
     else Ok error);
  (* JWT errors *)
  let error : working :=
    if is_text (name err) "JsonWebTokenError"
    then (Some "Invalid token", Some 401) else error in
  let error : working :=
    if is_text (name err) "TokenExpiredError"
    then (Some "Token expired", Some 401) else error in
  (* Multer errors (file upload) *)
  let error : working :=
    if bool_decide (code err = Some (JStr "LIMIT_FILE_SIZE"))
    then (Some "File too large", Some 400) else error in
  let error : working :=
    if bool_decide (code err = Some (JStr "LIMIT_UNEXPECTED_FILE"))
    then (Some "Unexpected file field", Some 400) else error in
  (* Express validator errors *)
  let error : working :=
    if is_text (type err) "entity.parse.failed"
    then (Some "Invalid JSON payload", Some 400) else error in
  (* Rate limit errors *)
  let error : working :=
    if bool_decide (status err = Some (JNum 429))
    then (Some "Too many requests", Some 429) else error in
  (* Default error *)
  let statusCode := or_number (snd error) (or_number (statusCode err) 500) in
  let message := or_else (fst error) "Server Error" in
  (* Don't leak error details in production *)
  Ok {| res_status := statusCode;
        res_error := message;
        res_debug :=
          if is_text (getenv "NODE_ENV") "development"
          then Some (stack err, err) else None |}.

(** [notFound]: the error that it hands to [next]. *)
Definition notFound (originalUrl : option string) (trace : string) : error :=
  with_statusCode 404
    (new_Error ("Route not found - " +:+ print_key originalUrl) trace).

(** [handleValidationErrors]. [validationErrors] is what
    [req.validationErrors()] returns, as a condition, and [None] when the
    request has no such method, as with the [express-validator] that the
    package declares (7.0.1): the call then throws. The result is the
    error handed to [next], or [None] for a plain [next()]. *)
Definition handleValidationErrors (validationErrors : option bool)
    (trace : string) : result (option error) :=
  match validationErrors with
  | None => Throw "TypeError"
  | Some errors =>
      if errors
      then Ok (Some (with_statusCode 400 (new_Error "Validation failed" trace)))
      else Ok None
  end.

End ErrorHandler.

(** *** The routes: pagination, and the checks before an update *)

(** The [pagination] object of a listing. *)
Record pagination := {
  currentPage : Z;
  totalPages : Z;
  totalItems : Z;
  hasNextPage : bool;
  hasPrevPage : bool;
  limit : Z
}.

(** [skip] of a listing: [(page - 1) * limit]. *)
Definition skip (page limit : Z) : Z := (page - 1) * limit.

(** The pagination info of a listing; [page] and [limit] are the numbers
    that their query strings stand for, [total] is [countDocuments]. *)
Definition paginate (page limit total : Z) : pagination :=
  let totalPages := ceil_div total limit in
  {| currentPage := page;
     totalPages := totalPages;
     totalItems := total;
     hasNextPage := page <? totalPages;
     hasPrevPage := 1 <? page;
     limit := limit |}.

(** What the checks of a handler decide: an answer, or to go on. *)
Inductive decision : Type :=
| Answer (status : Z) (error : string)
| Proceed.

(** [PUT /api/users/:id]: the checks between [User.findById] and
    [User.findByIdAndUpdate]; [found] is the result of [findById],
    [requester] is [req.user], [id] is [req.params.id], and [body] is
    [req.body], of which a property is read. *)
Definition update_user_checks (found : option obj) (requester : obj)
    (id : string) (body : option obj) : result decision :=
  match found with
  | None => Ok (Answer 404 "User not found")
  | Some _ =>
      own ← toString (requester !! "_id");
      (* Check if user is updating their own profile or is admin *)
      if negb (String.eqb own id)
         && negb (bool_decide (requester !! "role" = Some (JStr "admin")))
      then Ok (Answer 403 "Not authorized to update this profile")
      else
        (* Only admins can change roles *)
        role ← match body with
               | Some b => Ok (b !! "role")
               | None => Throw "TypeError"
               end;
        if truthy role
           && negb (bool_decide (requester !! "role" = Some (JStr "admin")))
        then Ok (Answer 403 "Only admins can change user roles")
        else Ok Proceed
  end.

(** *** Requests, errors and answers of the kind the tests use *)

Module Samples.
Import Reference.

(** A request that carries the issued token. *)
Definition bearer_request : request :=
  request_with (Some ("Bearer " +:+ issued)).

(** That request with the active user and the token attached. *)
Definition attached_request : request :=
  {| header := header bearer_request;
     user := Some (stored mockUser true);
     token := Some issued |}.

(** A request of [mockUser] for the resource of the route parameter. *)
Definition own_resource : routed :=
  {| base := {| header := λ _, None; user := Some mockUser; token := None |};
     params := {[ "userId" := "507f1f77bcf86cd799439011" ]};
     body := None |}.

(** The answer to a route that does not exist. *)
Definition no_route : ErrorHandler.response :=
  {| ErrorHandler.res_status := 404;
     ErrorHandler.res_error := "Route not found - /api/nothing";
     ErrorHandler.res_debug := None |}.

(** The error of a document that fails two validators. *)
Definition two_validators : ErrorHandler.error :=
  {| ErrorHandler.name := Some "ValidationError";
     ErrorHandler.message := Some "Post validation failed";
     ErrorHandler.stack := None;
     ErrorHandler.code := None;
     ErrorHandler.keyValue := None;
     ErrorHandler.errors :=
       Some [Some "Title is required"; Some "Content is required"];
     ErrorHandler.type := None;
     ErrorHandler.status := None;
     ErrorHandler.statusCode := None |}.

End Samples.

(** * Properties *)

(** ** Splitting and joining *)

Section SplitFacts.
Import JsString.
Variable sep : ascii.

Lemma split_not_nil s : split sep s ≠ [].
Proof.
  destruct s as [|c s]; simpl; [done|].
  destruct (Ascii.eqb c sep); [done|].
  by destruct (split sep s).
Qed.

Lemma split_free s : has sep s = false → split sep s = [s].
Proof.
  induction s as [|c s IH]; simpl; [done|].
  intros [Hc Hs]%orb_false_iff. rewrite Hc, (IH Hs). done.
Qed.

Lemma split_app a b :
  has sep a = false → split sep (a +:+ String sep b) = a :: split sep b.
Proof.
  induction a as [|c a IH]; simpl.
  - intros _. by rewrite Ascii.eqb_refl.
  - intros [Hc Ha]%orb_false_iff. rewrite Hc, (IH Ha). done.
Qed.

Lemma split_segments_free s : Forall (λ p, has sep p = false) (split sep s).
Proof.
  induction s as [|c s IH]; simpl.
  - by constructor.
  - destruct (Ascii.eqb c sep) eqn:Hc.
    + by constructor.
    + destruct (split sep s) as [|seg rest]; [by repeat constructor; simpl; rewrite Hc|].
      inversion_clear IH. constructor; [|done]. simpl. by rewrite Hc.
Qed.

Lemma join_split s : join (String sep "") (split sep s) = s.
Proof.
  induction s as [|c s IH]; simpl; [done|].
  pose proof (split_not_nil s) as Hnil.
  destruct (Ascii.eqb_spec c sep) as [->|Hne].
  - destruct (split sep s) as [|seg rest] eqn:Hs; [done|].
    simpl in *. by rewrite IH.
  - destruct (split sep s) as [|seg rest] eqn:Hs; [done|].
    destruct rest; simpl in *; by rewrite <- IH.
Qed.

(** A string splits in two exactly when it is two separator-free
    segments around one separator. *)
Lemma split_two s a b :
  split sep s = [a; b] ↔
  s = a +:+ String sep b ∧ has sep a = false ∧ has sep b = false.
Proof.
  split.
  - intros Hs. pose proof (join_split s) as Hj.
    pose proof (split_segments_free s) as Hf.
    rewrite Hs in Hj, Hf. simpl in Hj.
    inversion_clear Hf as [|?? Ha Hf']. inversion_clear Hf' as [|?? Hb _].
    done.
  - intros (-> & Ha & Hb). by rewrite (split_app _ _ Ha), (split_free _ Hb).
Qed.

End SplitFacts.

(** ** TokenCodec: the header *)

Lemma extract_bearer (t : string) :
  JsString.has " " t = false →
  extractTokenFromHeader (Some ("Bearer " +:+ t)) = Ok t.
Proof.
  intros Ht. unfold extractTokenFromHeader.
  change ("Bearer " +:+ t) with ("Bearer" +:+ String " " t).
  assert (JsString.split " " ("Bearer" +:+ String " " t) = ["Bearer"; t]) as ->.
  { by apply split_two. }
  done.
Qed.

Lemma extract_ok_inv (h : option string) (t : string) :
  extractTokenFromHeader h = Ok t → bearer_form h t.
Proof.
  unfold extractTokenFromHeader, bearer_form.
  destruct h as [s|]; [|done].
  destruct (JsString.truthy s); simpl; [|done].
  destruct (JsString.split " " s) as [|p0 [|p1 [|]]] eqn:Hs; try done.
  destruct (String.eqb_spec p0 "Bearer") as [->|]; simpl; [|done].
  intros [= ->]. apply split_two in Hs as (-> & _ & Ht). done.
Qed.

(** C5. [extractTokenFromHeader h] returns [t] exactly when [h] is the
    two-segment form [Bearer <t>] (the scheme, one space, a segment
    without a space; the segments are those of [split(' ')], so the form
    [Bearer ] with nothing after the space yields the empty token); it
    throws the missing-header error when the header is absent or empty,
    and the malformed-header error for every other header. *)
Theorem extractTokenFromHeader_spec (h : option string) :
  (∀ t, extractTokenFromHeader h = Ok t ↔ bearer_form h t)
  ∧ (h = None ∨ h = Some "" → extractTokenFromHeader h = Throw MISSING_HEADER)
  ∧ (h ≠ None → h ≠ Some "" → (∀ t, ¬ bearer_form h t) →
     extractTokenFromHeader h = Throw MALFORMED_HEADER).
Proof.
  split; [|split].
  - intros t. split; [apply extract_ok_inv|].
    intros [-> Ht]. by apply extract_bearer.
  - by intros [-> | ->].
  - intros Hsome Hne Hform.
    destruct (extractTokenFromHeader h) as [t|msg] eqn:Hx.
    { by apply extract_ok_inv, Hform in Hx. }
    revert Hx. unfold extractTokenFromHeader.
    destruct h as [[|c s]|]; [done| |done].
    change (JsString.truthy (String c s)) with true. cbn [negb].
    destruct (JsString.split " " (String c s)) as [|p0 [|p1 [|]]];
      try by intros [= <-].
    destruct (String.eqb p0 "Bearer"); simpl; [done|by intros [= <-]].
Qed.

(** The theorem on the headers of the unit tests. *)
Lemma extractTokenFromHeader_spec_witness :
  extractTokenFromHeader (Some "Bearer abc") = Ok "abc"
  ∧ extractTokenFromHeader None = Throw MISSING_HEADER
  ∧ extractTokenFromHeader (Some "Basic xyz") = Throw MALFORMED_HEADER.
Proof.
  split; [|split].
  - apply (extractTokenFromHeader_spec (Some "Bearer abc")). by split.
  - apply (extractTokenFromHeader_spec None). by left.
  - apply (extractTokenFromHeader_spec (Some "Basic xyz")); [done|done|].
    intros t [[=] _].
Defined.

Example extract_bearer_only : extractTokenFromHeader (Some "Bearer") = Throw MALFORMED_HEADER.
Proof. reflexivity. Qed.

Example extract_extra_segment :
  extractTokenFromHeader (Some "Bearer token extra") = Throw MALFORMED_HEADER.
Proof. reflexivity. Qed.

Example extract_empty_segment : extractTokenFromHeader (Some "Bearer ") = Ok "".
Proof. reflexivity. Qed.

(** ** TokenCodec: issuing, verifying, refreshing *)

Lemma or_else_text (value : option string) (fallback : string) :
  fallback ≠ "" → or_else value fallback ≠ "".
Proof.
  intros Hf. unfold or_else. destruct value as [[|c s]|]; simpl; done.
Qed.

Lemma JWT_SECRET_text `{Env} : JWT_SECRET ≠ "".
Proof. by apply or_else_text. Qed.

(** A string literal is not among the given string literals. *)
Ltac not_listed :=
  let Hin := fresh "Hin" in
  intros Hin;
  repeat (apply elem_of_cons in Hin as [Hin|Hin]; [discriminate Hin|]);
  by apply elem_of_nil in Hin.

Ltac split_props user :=
  unfold issued_payload, set_prop;
  destruct (user !! "_id"), (user !! "email"),
    (user !! "username"), (user !! "role").

Lemma issued_payload_id user : issued_payload user !! "id" = user !! "_id".
Proof.
  unfold issued_payload, set_prop.
  destruct (user !! "_id"); [by simplify_map_eq|].
  destruct (user !! "email"), (user !! "username"), (user !! "role");
    by simplify_map_eq.
Qed.

Lemma issued_payload_email user : issued_payload user !! "email" = user !! "email".
Proof.
  unfold issued_payload, set_prop.
  destruct (user !! "email") eqn:He;
    destruct (user !! "_id"), (user !! "username"), (user !! "role");
    by simplify_map_eq.
Qed.

Lemma issued_payload_username user :
  issued_payload user !! "username" = user !! "username".
Proof.
  unfold issued_payload, set_prop.
  destruct (user !! "username") eqn:He;
    destruct (user !! "_id"), (user !! "email"), (user !! "role");
    by simplify_map_eq.
Qed.

Lemma issued_payload_role user : issued_payload user !! "role" = user !! "role".
Proof.
  unfold issued_payload, set_prop.
  destruct (user !! "role") eqn:He;
    destruct (user !! "_id"), (user !! "email"), (user !! "username");
    by simplify_map_eq.
Qed.

(** The issued payload has the four identity claims and nothing else. *)
Lemma issued_payload_other user k :
  k ∉ ["id"; "email"; "username"; "role"] → issued_payload user !! k = None.
Proof.
  intros Hk.
  assert (k ≠ "id" ∧ k ≠ "email" ∧ k ≠ "username" ∧ k ≠ "role") as (?&?&?&?).
  { repeat split; intros ->; apply Hk; set_solver. }
  split_props user; by simplify_map_eq.
Qed.

Lemma issued_payload_unregistered user : unregistered (issued_payload user).
Proof.
  unfold unregistered, registered.
  repeat (constructor; [apply issued_payload_other; not_listed|]).
  constructor.
Qed.

Lemma stamped_other payload o clock ttl k :
  k ∉ ["iat"; "exp"; "aud"; "iss"] →
  stamped payload o clock ttl !! k = payload !! k.
Proof.
  intros Hk.
  assert (k ≠ "iat" ∧ k ≠ "exp" ∧ k ≠ "aud" ∧ k ≠ "iss") as (?&?&?&?).
  { repeat split; intros ->; apply Hk; set_solver. }
  unfold stamped. by simplify_map_eq.
Qed.

Lemma stamped_exp payload o clock ttl :
  stamped payload o clock ttl !! "exp" = Some (JNum (seconds clock + ttl)).
Proof. unfold stamped. by simplify_map_eq. Qed.

Section TokenCodecFacts.
Context `{JwtLaws} `{Env}.

(** Issuing succeeds, and the package reads back what was issued. *)
Lemma generateToken_issues user clock ttl :
  timespan JWT_EXPIRES_IN = Some ttl →
  ∃ token,
    generateToken user clock = Ok token
    ∧ jwt_decode token
      = Ok (Some (stamped (issued_payload user) issue_options clock ttl))
    ∧ ∀ clock', seconds clock' < seconds clock + ttl →
        jwt_verify token JWT_SECRET clock'
        = Ok (stamped (issued_payload user) issue_options clock ttl).
Proof.
  intros Httl.
  destruct (sign_total (issued_payload user) JWT_SECRET issue_options clock ttl)
    as [token Hsign];
    [apply JWT_SECRET_text | done | apply issued_payload_unregistered |].
  exists token. split; [|split].
  - unfold generateToken. fold (issued_payload user). fold issue_options.
    by rewrite Hsign.
  - eapply decode_sign; [done|done|apply issued_payload_unregistered].
  - intros clock' Hlive.
    eapply verify_sign; [done|done|apply issued_payload_unregistered|done].
Qed.

Lemma generateToken_inv user clock token :
  generateToken user clock = Ok token →
  jwt_sign (issued_payload user) JWT_SECRET issue_options clock = Ok token.
Proof.
  unfold generateToken. fold (issued_payload user). fold issue_options.
  by destruct (jwt_sign _ _ _ _).
Qed.

End TokenCodecFacts.

(** ** The reference implementation keeps the contract *)

Module ReferenceFacts.
Import Reference.

Lemma read_print_bits p : read_bits (print_bits p) = Some p.
Proof. induction p as [p IH|p IH|]; simpl; by rewrite ?IH. Qed.

Lemma unwire_wire t : unwire (wire t) = Some t.
Proof.
  unfold unwire, wire. rewrite read_print_bits. simpl. apply decode_encode.
Qed.

Lemma has_registered_false payload :
  has_registered payload = false ↔ unregistered payload.
Proof.
  unfold has_registered, unregistered.
  induction registered as [|k l IH]; simpl.
  - split; [by constructor|done].
  - rewrite orb_false_iff, IH, Forall_cons, bool_decide_eq_false.
    rewrite <- eq_None_not_Some. done.
Qed.

Lemma ref_sign_inv payload secret o clock token :
  ref_sign payload secret o clock = Ok token →
  ∃ ttl, ref_timespan (expiresIn o) = Some ttl
         ∧ unregistered payload
         ∧ token = wire (stamped payload o clock ttl, secret).
Proof.
  unfold ref_sign.
  destruct (JsString.truthy secret); simpl; [|done].
  destruct (has_registered payload) eqn:Hreg; [done|].
  destruct (ref_timespan (expiresIn o)) as [ttl|]; [|done].
  intros [= <-]. exists ttl. by rewrite <- has_registered_false.
Qed.

#[export] Instance ref_laws : JwtLaws.
Proof.
  split; simpl.
  - intros payload secret o clock ttl Hsecret Httl Hreg.
    unfold ref_sign. destruct secret; [done|]. simpl.
    apply has_registered_false in Hreg. rewrite Hreg, Httl. eauto.
  - intros payload secret o clock ttl token
      (ttl' & Httl' & _ & ->)%ref_sign_inv Httl _.
    unfold ref_decode. rewrite unwire_wire. simpl. congruence.
  - intros payload secret o clock ttl token clock'
      (ttl' & Httl' & _ & ->)%ref_sign_inv Httl _ Hlive.
    assert (ttl' = ttl) as -> by congruence.
    unfold ref_verify. rewrite unwire_wire, String.eqb_refl, stamped_exp.
    simpl. destruct (Z.leb_spec (seconds clock + ttl) (seconds clock')); [lia|done].
  - intros payload secret o clock ttl token clock'
      (ttl' & Httl' & _ & ->)%ref_sign_inv Httl _ Hdead.
    assert (ttl' = ttl) as -> by congruence.
    unfold ref_verify. rewrite unwire_wire, String.eqb_refl, stamped_exp.
    simpl. destruct (Z.leb_spec (seconds clock + ttl) (seconds clock')); [eauto|lia].
Qed.

Lemma default_lifetime : timespan JWT_EXPIRES_IN = Some 604800.
Proof. reflexivity. Qed.

End ReferenceFacts.

Lemma stripped_other decoded k :
  k ∉ ["iat"; "exp"; "aud"; "iss"] → stripped decoded !! k = decoded !! k.
Proof.
  intros Hk.
  assert (k ≠ "iat" ∧ k ≠ "exp" ∧ k ≠ "aud" ∧ k ≠ "iss") as (?&?&?&?).
  { repeat split; intros ->; apply Hk; set_solver. }
  unfold stripped. by simplify_map_eq.
Qed.

Section TokenCodecClaims.
Context `{JwtLaws} `{Env}.

(** C4. For every user object, a token issued from it verifies, as long
    as it is verified within its lifetime, and the verified payload
    carries the issued identity: [id] is the user's [_id], and [email],
    [username] and [role] are the user's. *)
Theorem verify_generate_round_trip (user : obj) (clock clock' ttl : Z) :
  timespan JWT_EXPIRES_IN = Some ttl →
  seconds clock' < seconds clock + ttl →
  ∃ token decoded,
    generateToken user clock = Ok token
    ∧ verifyToken token clock' = Ok decoded
    ∧ decoded !! "id" = user !! "_id"
    ∧ decoded !! "email" = user !! "email"
    ∧ decoded !! "username" = user !! "username"
    ∧ decoded !! "role" = user !! "role".
Proof.
  intros Httl Hlive.
  destruct (generateToken_issues user clock ttl Httl)
    as (token & Hgen & _ & Hverify).
  exists token, (stamped (issued_payload user) issue_options clock ttl).
  split; [done|]. split.
  { unfold verifyToken. by rewrite (Hverify clock' Hlive). }
  rewrite !stamped_other by not_listed.
  by rewrite issued_payload_id, issued_payload_email,
    issued_payload_username, issued_payload_role.
Qed.

(** Refreshing re-issues from the stripped claims of the old token. *)
Lemma refreshToken_reissues token decoded clock ttl :
  jwt_decode token = Ok (Some decoded) →
  timespan JWT_EXPIRES_IN = Some ttl →
  ∃ token',
    refreshToken token clock = Ok token'
    ∧ jwt_decode token'
      = Ok (Some (stamped (issued_payload (stripped decoded))
                    issue_options clock ttl)).
Proof.
  intros Hdec Httl.
  destruct (generateToken_issues (stripped decoded) clock ttl Httl)
    as (token' & Hgen & Hdec' & _).
  exists token'. split; [|done].
  unfold refreshToken. rewrite Hdec. simpl.
  fold (stripped decoded). by rewrite Hgen.
Qed.

(** The [id] claim of a refreshed token is the [_id] claim of the old
    one: [generateToken] reads [_id], which a user document has and a
    decoded payload has not. *)
Lemma refreshToken_id_source token decoded clock ttl :
  jwt_decode token = Ok (Some decoded) →
  timespan JWT_EXPIRES_IN = Some ttl →
  ∃ token' decoded',
    refreshToken token clock = Ok token'
    ∧ jwt_decode token' = Ok (Some decoded')
    ∧ decoded' !! "id" = decoded !! "_id".
Proof.
  intros Hdec Httl.
  destruct (refreshToken_reissues token decoded clock ttl Hdec Httl)
    as (token' & Href & Hdec').
  eexists _, _. split; [done|]. split; [done|].
  rewrite stamped_other by not_listed.
  rewrite issued_payload_id. apply stripped_other. not_listed.
Qed.

(** C2, as the code has it. A token issued by [generateToken] for a user
    with an [_id] refreshes to a token without [id] claim; [email],
    [username] and [role] are kept; the new expiry is the refresh time
    plus the lifetime, so it exceeds the old one only when the refresh
    happens in a later second than the issue. *)
Theorem refreshToken_drops_id (user : obj) (v : jsval) (clock clock' ttl : Z)
    (token : string) :
  timespan JWT_EXPIRES_IN = Some ttl →
  user !! "_id" = Some v →
  generateToken user clock = Ok token →
  ∃ token' decoded decoded',
    refreshToken token clock' = Ok token'
    ∧ jwt_decode token = Ok (Some decoded)
    ∧ jwt_decode token' = Ok (Some decoded')
    ∧ decoded !! "id" = Some v
    ∧ decoded' !! "id" = None
    ∧ decoded' !! "email" = decoded !! "email"
    ∧ decoded' !! "username" = decoded !! "username"
    ∧ decoded' !! "role" = decoded !! "role"
    ∧ decoded !! "exp" = Some (JNum (seconds clock + ttl))
    ∧ decoded' !! "exp" = Some (JNum (seconds clock' + ttl)).
Proof.
  intros Httl Hid Hgen.
  pose proof (decode_sign _ _ _ _ ttl _ (generateToken_inv _ _ _ Hgen) Httl
                (issued_payload_unregistered user)) as Hdec.
  destruct (refreshToken_reissues token _ clock' ttl Hdec Httl)
    as (token' & Href & Hdec').
  eexists token', _, _.
  split; [done|]. split; [done|]. split; [done|].
  rewrite !stamped_exp.
  rewrite !stamped_other by not_listed.
  rewrite !issued_payload_id, !issued_payload_email,
    !issued_payload_username, !issued_payload_role.
  rewrite !stripped_other by not_listed.
  rewrite !stamped_other by not_listed.
  rewrite issued_payload_email, issued_payload_username, issued_payload_role.
  rewrite (issued_payload_other user "_id") by not_listed.
  done.
Qed.

End TokenCodecClaims.

Section ExpiryClaims.
Context `{Jwt} `{EcmaScript}.

Lemma isTokenExpired_falsy_exp token decoded clock :
  jwt_decode token = Ok (Some decoded) →
  truthy (decoded !! "exp") = false →
  isTokenExpired token clock = true.
Proof.
  intros Hdec Hexp. unfold isTokenExpired. rewrite Hdec. simpl.
  by rewrite Hexp.
Qed.

(** C6. With the clock past the first second of the epoch:
    [isTokenExpired] is true when decoding throws, when it yields
    [null], and when the payload has no [exp] claim; when the payload
    has a numeric [exp] claim it is true exactly when that expiry is
    before the current second. *)
Theorem isTokenExpired_fail_closed (token : string) (clock : Z) :
  1000 ≤ clock →
  (∀ msg, jwt_decode token = Throw msg → isTokenExpired token clock = true)
  ∧ (jwt_decode token = Ok None → isTokenExpired token clock = true)
  ∧ (∀ decoded, jwt_decode token = Ok (Some decoded) →
       decoded !! "exp" = None → isTokenExpired token clock = true)
  ∧ (∀ decoded e, jwt_decode token = Ok (Some decoded) →
       decoded !! "exp" = Some (JNum e) →
       (isTokenExpired token clock = true ↔ e < seconds clock)).
Proof.
  intros Hclock.
  assert (0 < seconds clock) as Hnow.
  { unfold seconds. apply Z.div_str_pos. lia. }
  split; [|split; [|split]].
  - intros msg Hdec. unfold isTokenExpired. by rewrite Hdec.
  - intros Hdec. unfold isTokenExpired. by rewrite Hdec.
  - intros decoded Hdec Hexp.
    apply (isTokenExpired_falsy_exp _ decoded); [done|]. by rewrite Hexp.
  - intros decoded e Hdec Hexp.
    unfold isTokenExpired. rewrite Hdec. simpl. rewrite Hexp. simpl.
    destruct (Z.eqb_spec e 0) as [->|Hne]; simpl; [done|].
    unfold js_lt. simpl. apply Z.ltb_lt.
Qed.

End ExpiryClaims.

(** ** AccessGate *)

Section AccessGateClaims.
Context `{Jwt} `{Env} `{UserModel}.

(** The middleware, stage by stage. *)
Lemma authenticate_stages req clock :
  authenticate req clock =
  match extractTokenFromHeader (header req "Authorization") with
  | Throw _ => AUTHENTICATION_FAILED
  | Ok token =>
      match verifyToken token clock with
      | Throw _ => AUTHENTICATION_FAILED
      | Ok decoded =>
          match User_findById (decoded !! "id") with
          | Throw _ => AUTHENTICATION_FAILED
          | Ok None => Respond 401 "User not found"
          | Ok (Some u) =>
              if truthy (u !! "isActive") then
                Next {| header := header req; user := Some u;
                        token := Some token |}
              else Respond 401 "User account is deactivated"
          end
      end
  end.
Proof.
  unfold authenticate.
  destruct (extractTokenFromHeader _) as [token|]; simpl; [|done].
  destruct (verifyToken token clock) as [decoded|]; simpl; [|done].
  destruct (User_findById _) as [[u|]|]; simpl; [|done|done].
  by destruct (truthy (u !! "isActive")).
Qed.

(** Every request is either handed on with an active principal
    attached, or answered with status 401. *)
Lemma authenticate_rejects_with_401 req clock :
  (∃ u token, authenticate req clock
              = Next {| header := header req; user := Some u;
                        token := Some token |}
              ∧ truthy (u !! "isActive") = true)
  ∨ (∃ error, authenticate req clock = Respond 401 error).
Proof.
  rewrite authenticate_stages. unfold AUTHENTICATION_FAILED.
  destruct (extractTokenFromHeader _) as [token|]; [|eauto].
  destruct (verifyToken token clock) as [decoded|]; [|eauto].
  destruct (User_findById _) as [[u|]|]; [|eauto|eauto].
  destruct (truthy (u !! "isActive")) eqn:Hactive; eauto.
Qed.

(** A failure of the header or of the token gets the generic body. *)
Lemma authenticate_generic_on_bad_token req clock :
  (∀ token, extractTokenFromHeader (header req "Authorization") = Ok token →
            ∃ msg, verifyToken token clock = Throw msg) →
  authenticate req clock = AUTHENTICATION_FAILED.
Proof.
  intros Hbad. rewrite authenticate_stages.
  destruct (extractTokenFromHeader _) as [token|]; [|done].
  by destruct (Hbad token eq_refl) as [msg ->].
Qed.

(** C1, as the code has it. When the header and the token pass,
    [authenticate] answers a missing principal with the body
    [User not found] and an inactive one with the body
    [User account is deactivated]: the status is 401 and the handler is
    not called, but the body is not the generic one and tells which
    check failed. *)
Theorem authenticate_discloses_principal_state req clock token decoded :
  extractTokenFromHeader (header req "Authorization") = Ok token →
  verifyToken token clock = Ok decoded →
  (User_findById (decoded !! "id") = Ok None →
   authenticate req clock = Respond 401 "User not found")
  ∧ (∀ u, User_findById (decoded !! "id") = Ok (Some u) →
          truthy (u !! "isActive") = false →
          authenticate req clock = Respond 401 "User account is deactivated").
Proof.
  intros Hx Hv. rewrite authenticate_stages, Hx, Hv. split.
  - by intros ->.
  - by intros u -> ->.
Qed.

End AccessGateClaims.

(** C10. For every request that carries a principal, whatever its role,
    the middleware of [authorize()] called without argument answers 403
    with the body [Insufficient permissions] and does not call the
    handler. *)
Theorem authorize_default_denies (req : request) (u : obj) :
  user req = Some u →
  authorize None req = Respond 403 "Insufficient permissions".
Proof.
  intros Hu. unfold authorize. rewrite Hu. simpl.
  unfold includes. destruct (u !! "role") as [[]|]; try done.
Qed.

Lemma includes_nil v : includes [] v = false.
Proof. by destruct v as [[]|]. Qed.

Example requireAdmin_admits_admin req u :
  user req = Some u → u !! "role" = Some (JStr "admin") →
  requireAdmin req = Next req.
Proof. intros Hu Hr. unfold requireAdmin, authorize. by rewrite Hu, Hr. Qed.

Example requireAdmin_denies_user req u :
  user req = Some u → u !! "role" = Some (JStr "user") →
  requireAdmin req = Respond 403 "Insufficient permissions".
Proof. intros Hu Hr. unfold requireAdmin, authorize. by rewrite Hu, Hr. Qed.

(** ** The claims on the requests of the unit tests *)

Section OnReference.
Import Reference ReferenceFacts.

Lemma authorize_default_denies_witness :
  authorize None {| header := λ _, None; user := Some admin; token := None |}
  = Respond 403 "Insufficient permissions".
Proof. by apply (authorize_default_denies _ admin). Defined.

Lemma generateToken_mockUser : generateToken mockUser 5000 = Ok issued.
Proof. reflexivity. Qed.

Lemma verify_generate_round_trip_witness :
  ∃ token decoded,
    generateToken mockUser 5000 = Ok token
    ∧ verifyToken token 6000 = Ok decoded
    ∧ decoded !! "id" = mockUser !! "_id"
    ∧ decoded !! "email" = mockUser !! "email"
    ∧ decoded !! "username" = mockUser !! "username"
    ∧ decoded !! "role" = mockUser !! "role".
Proof.
  apply (verify_generate_round_trip mockUser 5000 6000 604800).
  - reflexivity.
  - reflexivity.
Defined.

Lemma refreshToken_drops_id_witness :
  ∃ token' decoded decoded',
    refreshToken issued 5000 = Ok token'
    ∧ jwt_decode issued = Ok (Some decoded)
    ∧ jwt_decode token' = Ok (Some decoded')
    ∧ decoded !! "id" = Some (JStr "507f1f77bcf86cd799439011")
    ∧ decoded' !! "id" = None
    ∧ decoded' !! "email" = decoded !! "email"
    ∧ decoded' !! "username" = decoded !! "username"
    ∧ decoded' !! "role" = decoded !! "role"
    ∧ decoded !! "exp" = Some (JNum (seconds 5000 + 604800))
    ∧ decoded' !! "exp" = Some (JNum (seconds 5000 + 604800)).
Proof.
  apply (refreshToken_drops_id mockUser _ 5000 5000 604800 issued).
  - reflexivity.
  - reflexivity.
  - reflexivity.
Defined.

Lemma isTokenExpired_fail_closed_witness :
  isTokenExpired "invalid.token" 6000 = true
  ∧ (isTokenExpired issued 6000 = true ↔ 604805 < seconds 6000).
Proof.
  split.
  - destruct (isTokenExpired_fail_closed "invalid.token" 6000) as (_ & Hnull & _);
      [lia|].
    apply Hnull. reflexivity.
  - destruct (isTokenExpired_fail_closed issued 6000) as (_ & _ & _ & Hnum);
      [lia|].
    apply (Hnum (stamped (issued_payload mockUser) issue_options 5000 604800)).
    + unfold issued. simpl. unfold ref_decode. by rewrite unwire_wire.
    + apply stamped_exp.
Defined.

Lemma authenticate_discloses_principal_state_witness :
  @authenticate _ _ nobody (request_with (Some ("Bearer " +:+ issued))) 6000
  = Respond 401 "User not found"
  ∧ @authenticate _ _ (only_mockUser false)
      (request_with (Some ("Bearer " +:+ issued))) 6000
    = Respond 401 "User account is deactivated".
Proof.
  assert (extractTokenFromHeader
            (header (request_with (Some ("Bearer " +:+ issued))) "Authorization")
          = Ok issued) as Hx by (by vm_compute).
  assert (verifyToken issued 6000
          = Ok (stamped (issued_payload mockUser) issue_options 5000 604800))
    as Hv by (by vm_compute).
  split.
  - apply (@authenticate_discloses_principal_state _ _ nobody _ _ _ _ Hx Hv).
    reflexivity.
  - apply (@authenticate_discloses_principal_state _ _ (only_mockUser false)
             _ _ _ _ Hx Hv) with (u := stored mockUser false);
      by vm_compute.
Defined.

End OnReference.

(** ** Strings: appending, words *)

Lemma app_cons (c : ascii) (a b : string) : String c a +:+ b = String c (a +:+ b).
Proof. reflexivity. Qed.

Lemma app_nil_l (a : string) : "" +:+ a = a.
Proof. reflexivity. Qed.

Lemma app_nil_r (a : string) : a +:+ "" = a.
Proof. induction a as [|c a IH]; [done|]. by rewrite app_cons, IH. Qed.

Lemma app_assoc (a b c : string) : (a +:+ b) +:+ c = a +:+ (b +:+ c).
Proof. induction a as [|x a IH]; [done|]. by rewrite !app_cons, IH. Qed.

Lemma app_length (a b : string) :
  String.length (a +:+ b) = (String.length a + String.length b)%nat.
Proof. induction a as [|x a IH]; [done|]. rewrite app_cons. simpl. by rewrite IH. Qed.

Lemma all_chars_app f a b :
  all_chars f (a +:+ b) = all_chars f a && all_chars f b.
Proof.
  induction a as [|x a IH]; [done|].
  rewrite app_cons. simpl. by rewrite IH, andb_assoc.
Qed.

Section Words.
Import JsString.

Lemma split_ws_go_run w rest cur :
  all_chars (λ c, negb (is_space c)) w = true →
  split_ws_go (w +:+ rest) cur false = split_ws_go rest (cur +:+ w) false.
Proof.
  revert cur. induction w as [|c w IH]; intros cur Hw.
  - by rewrite app_nil_l, app_nil_r.
  - simpl in Hw. apply andb_true_iff in Hw as [Hc Hw].
    apply negb_true_iff in Hc.
    rewrite app_cons. simpl. rewrite Hc, (IH _ Hw), app_assoc. done.
Qed.

Lemma split_ws_go_start w rest cur :
  word w → split_ws_go (w +:+ rest) cur true = split_ws_go (w +:+ rest) cur false.
Proof.
  intros [Hne Hw]. destruct w as [|c w]; [done|].
  simpl in Hw. apply andb_true_iff in Hw as [Hc _].
  apply negb_true_iff in Hc. rewrite app_cons. simpl. by rewrite Hc.
Qed.

Lemma split_ws_go_join w ws b :
  Forall word (w :: ws) →
  split_ws_go (join " " (w :: ws)) "" b = w :: ws.
Proof.
  revert w b. induction ws as [|w' ws IH]; intros w b Hws.
  - inversion_clear Hws as [|?? Hw _]. simpl.
    rewrite <- (app_nil_r w) at 1.
    assert (split_ws_go (w +:+ "") "" b = split_ws_go (w +:+ "") "" false) as ->.
    { destruct b; [by apply split_ws_go_start|done]. }
    rewrite split_ws_go_run by apply Hw. done.
  - inversion_clear Hws as [|?? Hw Hws'].
    change (join " " (w :: w' :: ws)) with (w +:+ " " +:+ join " " (w' :: ws)).
    assert (split_ws_go (w +:+ " " +:+ join " " (w' :: ws)) "" b
            = split_ws_go (w +:+ " " +:+ join " " (w' :: ws)) "" false) as ->.
    { destruct b; [by apply split_ws_go_start|done]. }
    rewrite split_ws_go_run by apply Hw.
    rewrite app_nil_l.
    change (" " +:+ join " " (w' :: ws)) with (String " " (join " " (w' :: ws))).
    change (split_ws_go (String " " (join " " (w' :: ws))) w false)
      with (w :: split_ws_go (join " " (w' :: ws)) "" true).
    by rewrite IH.
Qed.

(** Words joined by single spaces split into these words. *)
Lemma split_ws_join ws :
  ws ≠ [] → Forall word ws → split_ws (join " " ws) = ws.
Proof.
  intros Hne Hws. destruct ws as [|w ws]; [done|].
  by apply split_ws_go_join.
Qed.

Lemma split_ws_go_not_nil s cur b : split_ws_go s cur b ≠ [].
Proof.
  revert cur b. induction s as [|c s IH]; intros cur b; simpl; [done|].
  destruct (is_space c); [destruct b|]; auto.
Qed.

(** A string splits into at least one piece. *)
Lemma split_ws_count s : (1 ≤ length (split_ws s))%nat.
Proof.
  unfold split_ws. pose proof (split_ws_go_not_nil s "" false).
  destruct (split_ws_go s "" false); [done|]. simpl. lia.
Qed.

End Words.

(** ** Rounding up *)

(** [ceil_div n d] is the least integer that is at least [n / d]. *)
Lemma ceil_div_spec (n d k : Z) :
  0 < d → (ceil_div n d = k ↔ d * (k - 1) < n ≤ d * k).
Proof.
  intros Hd. unfold ceil_div.
  pose proof (Z.div_mod (- n) d ltac:(lia)) as Hdm.
  pose proof (Z.mod_pos_bound (- n) d Hd) as Hm.
  split.
  - intros <-. nia.
  - intros [Hlo Hhi].
    assert ((- n) / d = - k) as Hq; [|lia].
    symmetry. apply (Z.div_unique (- n) d (- k) (d * k - n)); lia.
Qed.

Lemma ceil_div_positive (n d : Z) : 0 < d → 1 ≤ n → 1 ≤ ceil_div n d.
Proof.
  intros Hd Hn.
  destruct (ceil_div_spec n d (ceil_div n d) Hd) as [Hspec _].
  specialize (Hspec eq_refl). nia.
Qed.

(** ** ContentPipeline: what a step leaves alone *)

Lemma frame_refl paths p : frame paths p p.
Proof. by split. Qed.

Ltac use_frames :=
  repeat match goal with
    | Hx : ?a ∉ ?l → _, Hl : ?a ∉ ?l |- _ => specialize (Hx Hl)
    | Hx : ∀ k, k ∉ ?l → _, Hl : ?a ∉ ?l |- _ => specialize (Hx a Hl)
    end;
  congruence.

Lemma frame_trans l1 l2 p q r :
  frame l1 p q → frame l2 q r → frame (l1 ++ l2) p r.
Proof.
  intros [] [].
  split;
    [congruence | congruence
    | intros [??]%not_elem_of_app; use_frames ..
    | intros k [??]%not_elem_of_app; use_frames ].
Qed.

Lemma isModified_mark_other k path changed p :
  k ≠ path → bool_decide (k ∈ mark path changed p) = isModified k p.
Proof.
  intros Hk. unfold mark, isModified.
  destruct (isNew p || changed); [|done].
  apply bool_decide_ext. rewrite elem_of_union, elem_of_singleton.
  split; [by intros [?|?] | by right].
Qed.

Lemma isModified_mark_same path changed p :
  bool_decide (path ∈ mark path changed p)
  = isNew p || changed || isModified path p.
Proof.
  unfold mark, isModified. destruct (isNew p || changed); simpl; [|done].
  apply bool_decide_eq_true. apply elem_of_union_l. by apply elem_of_singleton.
Qed.

(** An assignment is framed by its own path. *)
Ltac frame_assign :=
  split; simpl; try reflexivity;
  try (let Hk := fresh in intros Hk; exfalso; apply Hk; by left);
  let k := fresh "k" in let Hk := fresh in
  intros k Hk; apply isModified_mark_other; intros ->; apply Hk; by left.

Lemma frame_assign_title v p : frame ["title"] p (assign_title v p).
Proof. frame_assign. Qed.
Lemma frame_assign_content v p : frame ["content"] p (assign_content v p).
Proof. frame_assign. Qed.
Lemma frame_assign_slug v p : frame ["slug"] p (assign_slug v p).
Proof. frame_assign. Qed.
Lemma frame_assign_excerpt v p : frame ["excerpt"] p (assign_excerpt v p).
Proof. frame_assign. Qed.
Lemma frame_assign_status v p : frame ["status"] p (assign_status v p).
Proof. frame_assign. Qed.
Lemma frame_assign_isPublished v p :
  frame ["isPublished"] p (assign_isPublished v p).
Proof. frame_assign. Qed.
Lemma frame_assign_publishedAt v p :
  frame ["publishedAt"] p (assign_publishedAt v p).
Proof. frame_assign. Qed.
Lemma frame_assign_viewCount v p : frame ["viewCount"] p (assign_viewCount v p).
Proof. frame_assign. Qed.
Lemma frame_assign_likeCount v p : frame ["likeCount"] p (assign_likeCount v p).
Proof. frame_assign. Qed.
Lemma frame_assign_commentCount v p :
  frame ["commentCount"] p (assign_commentCount v p).
Proof. frame_assign. Qed.
Lemma frame_assign_readingTime v p :
  frame ["readingTime"] p (assign_readingTime v p).
Proof. frame_assign. Qed.

Section HookFrames.
Context `{SlugifyData}.

Lemma frame_generate_slug p : frame ["slug"] p (generate_slug p).
Proof.
  unfold generate_slug. case_match;
    [apply frame_assign_slug | apply frame_refl].
Qed.

Lemma frame_generate_excerpt p : frame ["excerpt"] p (generate_excerpt p).
Proof.
  unfold generate_excerpt. case_match;
    [apply frame_assign_excerpt | apply frame_refl].
Qed.

Lemma frame_calculate_readingTime p :
  frame ["readingTime"] p (calculate_readingTime p).
Proof.
  unfold calculate_readingTime. case_match;
    [apply frame_assign_readingTime | apply frame_refl].
Qed.

Lemma frame_set_publishedAt clock p :
  frame ["publishedAt"; "isPublished"] p (set_publishedAt clock p).
Proof.
  unfold set_publishedAt. case_match; [|apply frame_refl].
  eapply (frame_trans ["publishedAt"] ["isPublished"]);
    [apply frame_assign_publishedAt | apply frame_assign_isPublished].
Qed.

Lemma frame_pre_save_derive clock p :
  frame derived_paths p (pre_save_derive clock p).
Proof.
  unfold pre_save_derive.
  eapply (frame_trans ["slug"; "excerpt"; "readingTime"]
            ["publishedAt"; "isPublished"]); [|apply frame_set_publishedAt].
  eapply (frame_trans ["slug"; "excerpt"] ["readingTime"]);
    [|apply frame_calculate_readingTime].
  eapply (frame_trans ["slug"] ["excerpt"]);
    [apply frame_generate_slug | apply frame_generate_excerpt].
Qed.

Lemma frame_pre_save_unique_slug db clock p :
  frame ["slug"] p (pre_save_unique_slug db clock p).
Proof.
  unfold pre_save_unique_slug. repeat case_match;
    (apply frame_assign_slug || apply frame_refl).
Qed.

(** The paths that a save may write. *)
Lemma frame_hooks db clocks p :
  frame (derived_paths ++ ["slug"]) p
    (pre_save_unique_slug db (snd clocks) (pre_save_derive (fst clocks) p)).
Proof.
  eapply frame_trans;
    [apply frame_pre_save_derive | apply frame_pre_save_unique_slug].
Qed.

End HookFrames.

(** ** ContentPipeline: reading time *)

(** The paths of the document that [save] returns, read through the
    write. *)
Ltac saved_paths :=
  unfold save, persisted, isModified;
  cbn [fst snd _id title content slug excerpt status isPublished publishedAt
       viewCount likeCount commentCount readingTime isNew modifiedPaths].

Lemma truthy_text s : JsString.truthy s = true ↔ s ≠ "".
Proof. by destruct s. Qed.

(** ** Numbers *)

Lemma double_small z : Z.abs z < 2 ^ 53 → double z = z.
Proof. intros Hz. unfold double. by rewrite (proj2 (Z.ltb_lt _ _) Hz). Qed.

Lemma double_safe z : Z.abs z ≤ 2 ^ 53 → double z = z.
Proof.
  intros Hz. destruct (decide (Z.abs z = 2 ^ 53)) as [Heq|Hne].
  - assert (z = 2 ^ 53 ∨ z = - 2 ^ 53) as [-> | ->] by lia; by vm_compute.
  - apply double_small. lia.
Qed.


(** ** Saving: validation and the write *)

Section Saving.
Context `{SlugifyData}.

(** A save that succeeds passed validation and returns what the hooks
    and the write make of the document. *)
Lemma Document_save_ok db clocks p r :
  Document.save db clocks p = Ok r →
  validates p = true ∧ r = save db clocks p.
Proof.
  unfold Document.save. destruct (validates p); simpl; [|done].
  destruct (findById db (_id p)), (isNew p); try done; by intros [= <-].
Qed.

Lemma Document_save_invalid db clocks p :
  validates p = false → Document.save db clocks p = Throw "ValidationError".
Proof. intros Hv. unfold Document.save. by rewrite Hv. Qed.

Lemma Document_save_after_ok p st q :
  Document.save_after p st = Ok q →
  validates (foldl apply_edit p (edits st)) = true ∧ q = save_after p st.
Proof.
  unfold Document.save_after, save_after.
  destruct (Document.save _ _ _) as [r|] eqn:Hsave; simpl; [|done].
  apply Document_save_ok in Hsave as [Hv ->]. by intros [= <-].
Qed.

Lemma Document_run_ok steps p q :
  Document.run steps p = Ok q → q = run steps p.
Proof.
  unfold Document.run, run. revert p.
  induction steps as [|st steps IH]; intros p; simpl; [by intros [= <-]|].
  destruct (Document.save_after p st) as [p'|] eqn:Hstep; simpl; [|done].
  apply Document_save_after_ok in Hstep as [_ ->]. apply IH.
Qed.

Lemma validates_content p : validates p = true → content p ≠ "".
Proof.
  unfold validates. intros Hv Hc. rewrite Hc in Hv. simpl in Hv.
  by rewrite andb_false_r in Hv.
Qed.

End Saving.

(** ** Words and pieces *)

Section Pieces.
Import JsString.

Lemma split_ws_go_count s :
  (∀ cur, length (split_ws_go s cur true)
          = (count_words s false
             + (if ends_in_space s true then 1 else 0))%nat)
  ∧ (∀ cur, length (split_ws_go s cur false)
            = (1 + count_words s true
               + (if ends_in_space s false then 1 else 0))%nat).
Proof.
  induction s as [|c s [IHa IHb]]; split; intros cur; simpl; try done;
    destruct (is_space c); simpl; rewrite ?IHa, ?IHb; lia.
Qed.

(** The pieces of a text that is not empty are its words, and one more
    piece for white space at its start and one for white space at its
    end. *)
Lemma wordCount_words s :
  s ≠ "" →
  wordCount s
  = words s + (if leading_space s then 1 else 0)
    + (if trailing_space s then 1 else 0).
Proof.
  destruct s as [|c s]; [done|]. intros _.
  assert (length (split_ws (String c s))
          = (count_words (String c s) false
             + (if is_space c then 1 else 0)
             + (if ends_in_space (String c s) false then 1 else 0))%nat)
    as Hn.
  { unfold split_ws. simpl. destruct (split_ws_go_count s) as [Ha Hb].
    destruct (is_space c); simpl; rewrite ?Ha, ?Hb; lia. }
  unfold wordCount, words, trailing_space, leading_space. rewrite Hn.
  repeat case_match; lia.
Qed.

End Pieces.

Section ReadingTime.
Context `{SlugifyData}.

Lemma save_readingTime db clocks p :
  readingTime (fst (save db clocks p))
  = if JsString.truthy (content p) then ceil_div (wordCount (content p)) 200
    else readingTime p.
Proof.
  saved_paths.
  rewrite (frame_readingTime _ _ _ (frame_pre_save_unique_slug _ _ _))
    by not_listed.
  unfold pre_save_derive.
  rewrite (frame_readingTime _ _ _ (frame_set_publishedAt _ _)) by not_listed.
  pose proof (frame_trans _ _ _ _ _
                (frame_generate_slug p)
                (frame_generate_excerpt (generate_slug p))) as Hf.
  unfold calculate_readingTime.
  rewrite (frame_content _ _ _ Hf) by not_listed.
  destruct (JsString.truthy (content p)); simpl; [done|].
  by rewrite (frame_readingTime _ _ _ Hf) by not_listed.
Qed.

(** C7, as the code has it. Every save that succeeds has content that is
    not empty, and it sets the reading time to the number of pieces of
    [content.split(/\s+/)] over 200, rounded up, which is at least 1. The
    pieces are the words of the content and one more piece for white
    space at its start and one for white space at its end; 400 words
    joined by single spaces give 2. A save of a document with empty
    content is rejected by validation, and the hook by itself leaves the
    reading time of such a document as it is. *)
Theorem readingTime_on_save :
  (∀ db clocks p q db',
     Document.save db clocks p = Ok (q, db') →
     content p ≠ ""
     ∧ readingTime q = ceil_div (wordCount (content p)) 200
     ∧ 1 ≤ readingTime q
     ∧ wordCount (content p)
       = words (content p)
         + (if leading_space (content p) then 1 else 0)
         + (if trailing_space (content p) then 1 else 0)
     ∧ (∀ ws, length ws = 400%nat → Forall word ws →
              content p = JsString.join " " ws → readingTime q = 2))
  ∧ (∀ db clocks p,
       content p = "" →
       Document.save db clocks p = Throw "ValidationError"
       ∧ readingTime (pre_save_derive (fst clocks) p) = readingTime p).
Proof.
  split.
  - intros db clocks p q db' [Hv Hq]%Document_save_ok.
    pose proof (validates_content p Hv) as Hc.
    assert (q = fst (save db clocks p)) as -> by (by rewrite <- Hq).
    rewrite save_readingTime, (proj2 (truthy_text _) Hc).
    split; [done|]. split; [done|]. split.
    { apply ceil_div_positive; [lia|].
      unfold wordCount. pose proof (split_ws_count (content p)) as Hn.
      lia. }
    split; [by apply wordCount_words|].
    intros ws Hlen Hws Hjoin.
    assert (ws ≠ []) as Hne by (by intros ->).
    assert (wordCount (content p) = 400) as ->; [|done].
    unfold wordCount. by rewrite Hjoin, split_ws_join, Hlen.
  - intros db clocks p Hc. split.
    + apply Document_save_invalid. unfold validates. rewrite Hc. simpl.
      by rewrite andb_false_r.
    + unfold pre_save_derive.
      rewrite (frame_readingTime _ _ _ (frame_set_publishedAt _ _))
        by not_listed.
      pose proof (frame_trans _ _ _ _ _
                    (frame_generate_slug p)
                    (frame_generate_excerpt (generate_slug p))) as Hf.
      unfold calculate_readingTime.
      rewrite (frame_content _ _ _ Hf), Hc by not_listed. simpl.
      by rewrite (frame_readingTime _ _ _ Hf) by not_listed.
Qed.

End ReadingTime.

(** ** ContentPipeline: counters *)

Section Counters.
Context `{SlugifyData}.

Lemma save_counters db clocks p :
  viewCount (fst (save db clocks p)) = viewCount p
  ∧ likeCount (fst (save db clocks p)) = likeCount p
  ∧ commentCount (fst (save db clocks p)) = commentCount p.
Proof.
  saved_paths. pose proof (frame_hooks db clocks p) as Hf.
  rewrite (frame_viewCount _ _ _ Hf), (frame_likeCount _ _ _ Hf),
    (frame_commentCount _ _ _ Hf) by not_listed.
  done.
Qed.

Lemma Document_save_counters db clocks p q db' :
  Document.save db clocks p = Ok (q, db') →
  viewCount q = viewCount p
  ∧ likeCount q = likeCount p
  ∧ commentCount q = commentCount p.
Proof.
  intros [_ Hq]%Document_save_ok.
  assert (q = fst (save db clocks p)) as -> by (by rewrite <- Hq).
  apply save_counters.
Qed.

Lemma decrementLikeCount_value db clocks p q db' :
  decrementLikeCount db clocks p = Ok (q, db') →
  likeCount q
  = if 0 <? likeCount p then js_sub (likeCount p) 1 else likeCount p.
Proof.
  unfold decrementLikeCount.
  intros (_ & -> & _)%Document_save_counters.
  by destruct (0 <? likeCount p).
Qed.

Lemma decrementCommentCount_value db clocks p q db' :
  decrementCommentCount db clocks p = Ok (q, db') →
  commentCount q
  = if 0 <? commentCount p then js_sub (commentCount p) 1 else commentCount p.
Proof.
  unfold decrementCommentCount.
  intros (_ & _ & ->)%Document_save_counters.
  by destruct (0 <? commentCount p).
Qed.

Lemma incrementViewCount_value db clocks p q db' :
  incrementViewCount db clocks p = Ok (q, db') →
  viewCount q = js_add (viewCount p) 1.
Proof.
  unfold incrementViewCount. by intros (-> & _ & _)%Document_save_counters.
Qed.

Lemma incrementLikeCount_value db clocks p q db' :
  incrementLikeCount db clocks p = Ok (q, db') →
  likeCount q = js_add (likeCount p) 1.
Proof.
  unfold incrementLikeCount. by intros (_ & -> & _)%Document_save_counters.
Qed.

Lemma incrementCommentCount_value db clocks p q db' :
  incrementCommentCount db clocks p = Ok (q, db') →
  commentCount q = js_add (commentCount p) 1.
Proof.
  unfold incrementCommentCount. by intros (_ & _ & ->)%Document_save_counters.
Qed.




End Counters.

(** ** ContentPipeline: publication *)

Section Publication.
Context `{SlugifyData}.

Lemma derive_publication p :
  let q := calculate_readingTime (generate_excerpt (generate_slug p)) in
  publishes q = publishes p
  ∧ publishedAt q = publishedAt p
  ∧ isPublished q = isPublished p
  ∧ status q = status p.
Proof.
  pose proof (frame_trans _ _ _ _ _
                (frame_trans _ _ _ _ _
                   (frame_generate_slug p)
                   (frame_generate_excerpt (generate_slug p)))
                (frame_calculate_readingTime
                   (generate_excerpt (generate_slug p)))) as Hf.
  simpl. unfold publishes.
  rewrite (frame_isModified _ _ _ Hf), (frame_status _ _ _ Hf),
    (frame_publishedAt _ _ _ Hf), (frame_isPublished _ _ _ Hf) by not_listed.
  done.
Qed.

Lemma save_publication db clocks p :
  publishedAt (fst (save db clocks p))
  = (if publishes p then Some (fst clocks) else publishedAt p)
  ∧ isPublished (fst (save db clocks p))
    = (if publishes p then true else isPublished p)
  ∧ status (fst (save db clocks p)) = status p
  ∧ (∀ k, isModified k (fst (save db clocks p)) = false).
Proof.
  saved_paths.
  pose proof (frame_pre_save_unique_slug db (snd clocks)
                (pre_save_derive (fst clocks) p)) as Hf.
  rewrite (frame_publishedAt _ _ _ Hf), (frame_isPublished _ _ _ Hf),
    (frame_status _ _ _ Hf) by not_listed.
  destruct (derive_publication p) as (Hg & Hat & Hpub & Hst).
  unfold pre_save_derive, set_publishedAt. fold (publishes
    (calculate_readingTime (generate_excerpt (generate_slug p)))).
  rewrite Hg. destruct (publishes p); simpl; by rewrite ?Hat, ?Hpub, ?Hst.
Qed.

Lemma edit_publication p e :
  writes_publication e = false →
  publishedAt (apply_edit p e) = publishedAt p
  ∧ isPublished (apply_edit p e) = isPublished p.
Proof. by destruct e. Qed.

Lemma edits_publication p es :
  Forall (λ e, writes_publication e = false) es →
  publishedAt (foldl apply_edit p es) = publishedAt p
  ∧ isPublished (foldl apply_edit p es) = isPublished p.
Proof.
  revert p. induction es as [|e es IH]; intros p Hes; simpl; [done|].
  inversion_clear Hes as [|?? He Hes'].
  destruct (IH (apply_edit p e) Hes') as [-> ->].
  by apply edit_publication.
Qed.

(** A save keeps a date of publication, and keeps the flag once set. *)
Lemma save_after_keeps p st :
  Forall (λ e, writes_publication e = false) (edits st) →
  (∀ t, publishedAt p = Some t → publishedAt (save_after p st) = Some t)
  ∧ (isPublished p = true → isPublished (save_after p st) = true).
Proof.
  intros Hq. unfold save_after.
  destruct (save_publication (collection st) (clocks st)
              (foldl apply_edit p (edits st))) as (-> & -> & _).
  destruct (edits_publication p (edits st) Hq) as [Hat Hpub].
  unfold publishes. rewrite Hat, Hpub. split.
  - intros t ->. by rewrite andb_false_r.
  - intros ->. by case_match.
Qed.

Lemma edit_publication_inv p e :
  writes_publication e = false →
  publication_inv p → publication_inv (apply_edit p e).
Proof.
  intros He [Hat Hst]. unfold publication_inv.
  destruct (edit_publication p e He) as [-> ->]. split; [done|].
  destruct e; try discriminate He; unfold isModified at 1; simpl;
    try (rewrite isModified_mark_other by discriminate; exact Hst).
  intros ->. rewrite isModified_mark_same.
  destruct (isNew p); simpl; [by left|].
  destruct (decide (status p = published)) as [Heq|Hne].
  - destruct (Hst Heq) as [Hm| ->]; [|by right].
    left. fold (isModified "status" p). by rewrite Hm, orb_true_r.
  - left. by rewrite bool_decide_true.
Qed.

Lemma edits_publication_inv p es :
  Forall (λ e, writes_publication e = false) es →
  publication_inv p → publication_inv (foldl apply_edit p es).
Proof.
  revert p. induction es as [|e es IH]; intros p Hes Hinv; simpl; [done|].
  inversion_clear Hes as [|?? He Hes'].
  by apply IH, edit_publication_inv.
Qed.

(** After a save, a published document is flagged as such. *)
Lemma save_publication_inv db clocks p :
  publication_inv p →
  publication_inv (fst (save db clocks p))
  ∧ (status (fst (save db clocks p)) = published →
     isPublished (fst (save db clocks p)) = true).
Proof.
  intros [Hat Hst].
  destruct (save_publication db clocks p) as (Hat' & Hpub' & Hst' & Hmod').
  assert (status p = published → isPublished (fst (save db clocks p)) = true)
    as Hflag.
  { intros Heq. rewrite Hpub'. unfold publishes. rewrite Heq.
    destruct (isModified "status" p) eqn:Hm; simpl.
    - case_bool_decide as Hp; [done|].
      apply Hat. by destruct (publishedAt p); [eexists|].
    - by destruct (Hst Heq). }
  split; [split|].
  - rewrite Hat', Hpub'. destruct (publishes p); [done|]. exact Hat.
  - rewrite Hst'. intros Heq. right. by apply Hflag.
  - by rewrite Hst'.
Qed.

Lemma run_publication_inv steps p :
  quiet steps → publication_inv p →
  publication_inv (run steps p)
  ∧ (steps ≠ [] → status (run steps p) = published →
     isPublished (run steps p) = true).
Proof.
  unfold run. revert p.
  induction steps as [|st steps IH] using rev_ind; intros p Hq Hinv; [done|].
  apply Forall_app in Hq as [Hq Hst]. inversion_clear Hst as [|?? Hst' _].
  rewrite foldl_snoc. unfold save_after at 1 3 4.
  destruct (IH p Hq Hinv) as [Hinv' _].
  destruct (save_publication_inv (collection st) (clocks st)
              (foldl apply_edit (foldl save_after p steps) (edits st)))
    as [Hinv'' Hflag]; [by apply edits_publication_inv|].
  split; [done|]. intros _. exact Hflag.
Qed.

Lemma fresh_publication_inv id : publication_inv (fresh id).
Proof. split; simpl; [by intros [? [=]]|done]. Qed.

Lemma run_keeps steps p :
  quiet steps →
  (∀ t, publishedAt p = Some t → publishedAt (run steps p) = Some t)
  ∧ (isPublished p = true → isPublished (run steps p) = true).
Proof.
  unfold run. revert p.
  induction steps as [|st steps IH]; intros p Hq; simpl; [done|].
  inversion_clear Hq as [|?? Hst Hq'].
  destruct (save_after_keeps p st Hst) as [Hat Hpub].
  destruct (IH (save_after p st) Hq') as [Hat' Hpub']. split.
  - intros t Ht. by apply Hat', Hat.
  - intros Hp. by apply Hpub', Hpub.
Qed.

(** Assignments that end on another status than the one they started
    from leave [status] marked. *)
Lemma edits_mark_status q es :
  status (foldl apply_edit q es) = status q
  ∨ isModified "status" (foldl apply_edit q es) = true.
Proof.
  induction es as [|e es IH] using rev_ind; [by left|].
  rewrite foldl_snoc. set (p := foldl apply_edit q es) in *.
  destruct e; simpl;
    try (destruct IH as [IH|IH]; [by left|right];
         unfold isModified; simpl;
         by rewrite isModified_mark_other by discriminate).
  unfold isModified at 1. simpl. rewrite isModified_mark_same.
  destruct IH as [IH|IH].
  - destruct (decide (st = status q)) as [->|Hne]; [by left|right].
    rewrite (bool_decide_true (status p ≠ st)) by congruence.
    by rewrite orb_true_r.
  - right. by rewrite IH, orb_true_r.
Qed.

(** C3, as the code has it. Over every sequence of saves that all
    succeed, on a document that is changed by assignments only, none of
    which writes [publishedAt] or [isPublished]: a date of publication,
    once set, is kept by every later save, and so is the flag
    [isPublished]; a document that started from the defaults is flagged
    after every save at which its status is [published]. A save that
    succeeds on a document whose status is [published] and was not when
    the document was created, loaded or last saved, and that has no date
    of publication, sets that date to the clock reading and the flag to
    true. The flag is never cleared. *)
Theorem publication_on_save :
  (∀ steps p q, quiet steps → Document.run steps p = Ok q →
     (∀ t, publishedAt p = Some t → publishedAt q = Some t)
     ∧ (isPublished p = true → isPublished q = true))
  ∧ (∀ steps id q, quiet steps → Document.run steps (fresh id) = Ok q →
       status q = published → isPublished q = true)
  ∧ (∀ q st q',
       modifiedPaths q = ∅ → status q ≠ published →
       status (foldl apply_edit q (edits st)) = published →
       publishedAt (foldl apply_edit q (edits st)) = None →
       Document.save_after q st = Ok q' →
       status q' = published
       ∧ publishedAt q' = Some (fst (clocks st))
       ∧ isPublished q' = true).
Proof.
  split; [|split].
  - intros steps p q Hq ->%Document_run_ok. by apply run_keeps.
  - intros steps id q Hq ->%Document_run_ok Hst.
    destruct (run_publication_inv steps (fresh id) Hq
                (fresh_publication_inv id)) as [_ Hflag].
    apply Hflag; [|done]. by intros ->.
  - intros q st q' _ Hq Hst Hat [_ ->]%Document_save_after_ok.
    unfold save_after.
    destruct (save_publication (collection st) (clocks st)
                (foldl apply_edit q (edits st))) as (-> & -> & -> & _).
    assert (publishes (foldl apply_edit q (edits st)) = true) as ->.
    { unfold publishes. rewrite Hst, Hat.
      destruct (edits_mark_status q (edits st)) as [Heq| ->]; [|done].
      congruence. }
    done.
Qed.

End Publication.

(** ** ContentPipeline: slugs *)

Section PlainStrings.
Import JsString.

Lemma plain_app a b : plain a → plain b → plain (a +:+ b).
Proof. unfold plain. intros Ha Hb. by rewrite all_chars_app, Ha, Hb. Qed.

Lemma plain_cons c s : plain (String c s) ↔ plain_char c = true ∧ plain s.
Proof. unfold plain. simpl. apply andb_true_iff. Qed.

Lemma plain_char_space c : plain_char c = true → is_space c = false.
Proof. unfold plain_char. by intros [?%negb_true_iff _]%andb_true_iff. Qed.

Lemma plain_char_upper c : plain_char c = true → is_upper c = false.
Proof. unfold plain_char. by intros [_ ?%negb_true_iff]%andb_true_iff. Qed.

Lemma drop_space_plain s : plain s → drop_space s = s.
Proof.
  destruct s as [|c s]; [done|].
  intros [Hc%plain_char_space _]%plain_cons. simpl. by rewrite Hc.
Qed.

Lemma trimEnd_plain s : plain s → trimEnd s = s.
Proof.
  induction s as [|c s IH]; [done|].
  intros [Hc%plain_char_space Hs]%plain_cons. simpl.
  rewrite (IH Hs), Hc. by destruct s.
Qed.

Lemma toLowerCase_plain s : plain s → toLowerCase s = s.
Proof.
  induction s as [|c s IH]; [done|].
  intros [Hc%plain_char_upper Hs]%plain_cons. simpl.
  unfold lower_char. by rewrite Hc, (IH Hs).
Qed.

(** The setters of [slug] leave a plain string as it is. *)
Lemma slug_setter_plain s : plain s → slug_setter s = s.
Proof.
  intros Hs. unfold slug_setter, trim.
  by rewrite drop_space_plain, trimEnd_plain, toLowerCase_plain.
Qed.

Lemma lower_char_plain c : is_space c = false → plain_char (lower_char c) = true.
Proof.
  destruct c as [[] [] [] [] [] [] [] []]; vm_compute; congruence.
Qed.

Lemma toLowerCase_makes_plain s :
  all_chars (λ c, negb (is_space c)) s = true → plain (toLowerCase s).
Proof.
  induction s as [|c s IH]; [done|]. simpl.
  intros [Hc%negb_true_iff Hs]%andb_true_iff.
  apply plain_cons. split; [by apply lower_char_plain|by apply IH].
Qed.

Lemma hyphenate_no_space s b :
  all_chars (λ c, negb (is_space c)) (Slugify.hyphenate s b) = true.
Proof.
  revert b. induction s as [|c s IH]; intros b; simpl; [done|].
  destruct (is_space c) eqn:Hc; [destruct b|]; simpl; rewrite ?Hc, ?IH; done.
Qed.

Lemma plain_slugify `{SlugifyData} s : plain (Slugify.slugify s).
Proof. apply toLowerCase_makes_plain, hyphenate_no_space. Qed.

Lemma plain_pretty_N_go (x : N) s : plain s → plain (pretty_N_go x s).
Proof.
  revert s. induction (N.lt_wf_0 x) as [x _ IH]; intros s Hs.
  destruct (decide (x = 0)%N) as [->|Hx]; [by rewrite pretty_N_go_0|].
  rewrite pretty_N_go_step by lia.
  apply IH; [apply N.div_lt; lia|].
  apply plain_cons. split; [|done].
  unfold pretty_N_char. by repeat case_match.
Qed.

Lemma plain_pretty (z : Z) : plain (pretty z).
Proof.
  assert (∀ x : N, plain (pretty x)) as HN.
  { intros x. unfold pretty, pretty_N. case_decide; [done|].
    by apply plain_pretty_N_go. }
  destruct z as [|x|x]; [done|apply (HN (Npos x))|].
  apply (plain_app "-"); [done|apply (HN (Npos x))].
Qed.

End PlainStrings.

Lemma upsert_self q db : q ∈ upsert q db.
Proof.
  induction db as [|r db IH]; simpl; [by left|].
  case_bool_decide; [by left|by right].
Qed.

Lemma upsert_other q r db : r ∈ db → _id r ≠ _id q → r ∈ upsert q db.
Proof.
  intros Hr Hid. induction db as [|x db IH]; simpl; [by apply elem_of_nil in Hr|].
  apply elem_of_cons in Hr as [<-|Hr].
  - rewrite bool_decide_false by done. by left.
  - case_bool_decide; right; [done|by apply IH].
Qed.

(** The query finds a document as soon as the collection holds one with
    that slug and another [_id]. *)
Lemma findOne_slug_other_finds db s id r :
  r ∈ db → slug r = s → _id r ≠ id →
  is_Some (findOne_slug_other db s id).
Proof.
  intros Hr Hs Hid. unfold findOne_slug_other.
  destruct (find _ db) as [x|] eqn:Hfind; [by eexists|].
  apply list_elem_of_In in Hr.
  pose proof (find_none _ _ Hfind r Hr) as Hno. simpl in Hno.
  apply bool_decide_eq_false in Hno. by destruct Hno.
Qed.

Lemma findOne_slug_other_found db s id r :
  findOne_slug_other db s id = Some r → r ∈ db ∧ slug r = s ∧ _id r ≠ id.
Proof.
  unfold findOne_slug_other. intros [Hin Hr]%find_some.
  apply list_elem_of_In in Hin. by apply bool_decide_eq_true in Hr as [??].
Qed.

Section Slugs.
Context `{SlugifyData}.

(** The slug that the first hook gives to a document that has a title
    and no slug. *)
Lemma derive_new_slug clock p :
  slug p = None → title p ≠ "" →
  slug (pre_save_derive clock p) = Some (Slugify.slugify (title p))
  ∧ isModified "slug" (pre_save_derive clock p) = true
  ∧ _id (pre_save_derive clock p) = _id p.
Proof.
  intros Hslug Htitle%truthy_text.
  assert (frame ["excerpt"; "readingTime"; "publishedAt"; "isPublished"]
            (generate_slug p) (pre_save_derive clock p)) as Hf.
  { unfold pre_save_derive.
    eapply (frame_trans ["excerpt"; "readingTime"]);
      [|apply frame_set_publishedAt].
    eapply (frame_trans ["excerpt"] ["readingTime"]);
      [apply frame_generate_excerpt | apply frame_calculate_readingTime]. }
  rewrite (frame_slug _ _ _ Hf), (frame_isModified _ _ _ Hf),
    (frame_id _ _ _ Hf) by not_listed.
  unfold generate_slug. rewrite Hslug, Htitle. simpl.
  rewrite slug_setter_plain by apply plain_slugify.
  split; [done|]. split; [|done].
  unfold isModified. simpl. rewrite isModified_mark_same, Hslug.
  rewrite (bool_decide_true (None ≠ Some _)) by done.
  by rewrite orb_true_r.
Qed.

(** The slug after the second hook, for a document whose slug was just
    assigned. *)
Lemma unique_slug_of_modified db clock q b :
  isModified "slug" q = true → slug q = Some b → plain b →
  slug (pre_save_unique_slug db clock q)
  = if findOne_slug_other db (Some b) (_id q) is Some _
    then Some (b +:+ "-" +:+ pretty clock) else Some b.
Proof.
  intros Hmod Hslug Hb. unfold pre_save_unique_slug. rewrite Hmod, Hslug.
  destruct (findOne_slug_other db (Some b) (_id q)); simpl; [|done].
  rewrite slug_setter_plain; [done|].
  apply plain_app; [done|]. apply (plain_app "-"); [done|apply plain_pretty].
Qed.

(** The slug of a saved document that had a title and no slug. *)
Lemma save_new_slug db clocks p :
  slug p = None → title p ≠ "" →
  let b := Slugify.slugify (title p) in
  slug (fst (save db clocks p))
  = (if findOne_slug_other db (Some b) (_id p) is Some _
     then Some (b +:+ "-" +:+ pretty (snd clocks)) else Some b)
  ∧ _id (fst (save db clocks p)) = _id p
  ∧ snd (save db clocks p) = upsert (fst (save db clocks p)) db.
Proof.
  intros Hslug Htitle b.
  destruct (derive_new_slug (fst clocks) p Hslug Htitle) as (Hs & Hm & Hid).
  saved_paths. split; [|split; [|done]].
  - rewrite (unique_slug_of_modified _ _ _ b Hm Hs) by apply plain_slugify.
    by rewrite Hid.
  - by rewrite (frame_id _ _ _ (frame_pre_save_unique_slug _ _ _)).
Qed.

Lemma suffixed_longer (b t : string) : b +:+ "-" +:+ t ≠ b.
Proof.
  intros Heq%(f_equal String.length). rewrite !app_length in Heq.
  simpl in Heq. lia.
Qed.

Lemma suffixed_text (b t : string) : b +:+ "-" +:+ t ≠ "".
Proof.
  intros Heq%(f_equal String.length). rewrite !app_length in Heq.
  simpl in Heq. lia.
Qed.

(** C9, as the code has it. Two documents with the same non-empty title
    and no slug are saved one after the other, the second one new to the
    collection. The uniqueness check of the second save finds a document
    with the slug derived from the title and another [_id], and the
    second slug is that slug followed by a hyphen and the clock reading,
    hence not empty. The first slug is the derived slug, with or without
    such a suffix; it is not empty when the derived slug is not. The two
    slugs differ when the first save met no collision or the two saves
    read different clock values. *)
Theorem slugs_of_equal_titles db c1 c2 p1 p2 :
  title p1 ≠ "" → title p2 = title p1 →
  slug p1 = None → slug p2 = None →
  _id p1 ≠ _id p2 → (∀ r, r ∈ db → _id r ≠ _id p2) →
  let b := Slugify.slugify (title p1) in
  let q1 := fst (save db c1 p1) in
  let db1 := snd (save db c1 p1) in
  let q2 := fst (save db1 c2 p2) in
  is_Some (findOne_slug_other db1 (Some b) (_id p2))
  ∧ slug q2 = Some (b +:+ "-" +:+ pretty (snd c2))
  ∧ slug q2 ≠ Some ""
  ∧ (slug q1 = Some b ∨ slug q1 = Some (b +:+ "-" +:+ pretty (snd c1)))
  ∧ (b ≠ "" → slug q1 ≠ Some "")
  ∧ (findOne_slug_other db (Some b) (_id p1) = None ∨ snd c1 ≠ snd c2 →
     slug q1 ≠ slug q2).
Proof.
  intros Ht1 Ht2 Hs1 Hs2 Hids Hnew b q1 db1 q2.
  destruct (save_new_slug db c1 p1 Hs1 Ht1) as (Hq1 & Hid1 & Hdb1).
  fold b q1 db1 in Hq1, Hid1, Hdb1.
  assert (title p2 ≠ "") as Ht2' by congruence.
  destruct (save_new_slug db1 c2 p2 Hs2 Ht2') as (Hq2 & _ & _).
  rewrite Ht2 in Hq2. fold b q2 in Hq2.
  assert (is_Some (findOne_slug_other db1 (Some b) (_id p2))) as Hfound.
  { destruct (findOne_slug_other db (Some b) (_id p1)) as [r|] eqn:Hfirst.
    - apply findOne_slug_other_found in Hfirst as (Hr & Hrs & Hrid).
      apply (findOne_slug_other_finds _ _ _ r); [|done|by apply Hnew].
      rewrite Hdb1. apply upsert_other; [done|congruence].
    - apply (findOne_slug_other_finds _ _ _ q1); [|done|congruence].
      rewrite Hdb1. apply upsert_self. }
  destruct Hfound as [r2 Hr2]. rewrite Hr2 in Hq2.
  split; [by eexists|]. split; [done|]. split.
  { rewrite Hq2. intros [= Heq]. by apply suffixed_text in Heq. }
  split.
  { rewrite Hq1. case_match; auto. }
  split.
  { intros Hb. rewrite Hq1. case_match; intros [= Heq]; [|done].
    by apply suffixed_text in Heq. }
  intros Hcase. rewrite Hq1, Hq2.
  destruct (findOne_slug_other db (Some b) (_id p1)) as [r|] eqn:Hfirst.
  - destruct Hcase as [|Hclock]; [done|].
    intros [= Heq]. apply Hclock.
    apply (inj (String.app b)), (inj (String.app "-")) in Heq.
    by apply (inj pretty) in Heq.
  - intros [= Heq]. symmetry in Heq. by apply suffixed_longer in Heq.
Qed.

End Slugs.

(** ** The content pipeline on the documents of the unit tests *)

Section PipelineOnReference.
Import Reference.

Example slug_of_test_title :
  Slugify.slugify "Test Post Title With Special Characters!@#"
  = "test-post-title-with-special-characters".
Proof. reflexivity. Qed.

Lemma readingTime_on_save_witness :
  ∃ q db', Document.save [] (1000, 1001) long_post = Ok (q, db')
           ∧ readingTime q = 2.
Proof.
  destruct readingTime_on_save as [Hsaved _].
  eexists _, _. split; [reflexivity|].
  destruct (Hsaved [] (1000, 1001) long_post _ _ eq_refl)
    as (_ & _ & _ & _ & Hwords).
  apply (Hwords (replicate 400 "word")).
  - reflexivity.
  - apply Forall_replicate. by split.
  - reflexivity.
Defined.

(** C7 fails as stated: the content of this post has 200 words, so that
    its reading time should be 1; it passes validation, its save
    succeeds, and the space after the last word makes a piece more and a
    reading time of 2. *)
Lemma readingTime_counts_trailing_space :
  validates trailing_space_post = true
  ∧ words (content trailing_space_post) = 200
  ∧ ceil_div (words (content trailing_space_post)) 200 = 1
  ∧ ∃ q db', Document.save [] (1000, 1001) trailing_space_post = Ok (q, db')
             ∧ readingTime q = 2.
Proof.
  split; [by vm_compute|]. split; [by vm_compute|]. split; [by vm_compute|].
  eexists _, _. split; [reflexivity|]. by vm_compute.
Qed.



(** C3 fails as stated: all three saves succeed, and after the last one
    the status is [archived] and [isPublished] is still true. *)
Lemma isPublished_outlives_published :
  ∃ q, Document.run lifecycle (fresh "a1") = Ok q
       ∧ status q = archived
       ∧ isPublished q = true
       ∧ publishedAt q = Some 2000.
Proof. eexists. split; [by vm_compute|]. by vm_compute. Qed.

Lemma publication_on_save_witness :
  ∃ q, Document.save_after saved_draft (once [SetStatus published] 2000 [saved_draft])
       = Ok q
       ∧ status q = published ∧ publishedAt q = Some 2000
       ∧ isPublished q = true.
Proof.
  destruct publication_on_save as (_ & _ & Hpublish).
  eexists. split; [by vm_compute|].
  apply (Hpublish saved_draft (once [SetStatus published] 2000 [saved_draft]));
    by vm_compute.
Defined.

(** C9 fails as stated: both posts pass validation and have the same
    title, and the first one is saved with the empty slug. *)
Lemma first_slug_empty :
  validates bang1 = true ∧ validates bang2 = true
  ∧ title bang1 = title bang2 ∧ slug bang1 = None ∧ slug bang2 = None
  ∧ slug (fst (save [] (1000, 1001) bang1)) = Some ""
  ∧ slug (fst (save (snd (save [] (1000, 1001) bang1)) (2000, 2001) bang2))
    = Some "-2001".
Proof. by vm_compute. Qed.

Lemma slugs_of_equal_titles_witness :
  slug (fst (save [] (1000, 1001) post1)) = Some "test-post"
  ∧ slug (fst (save (snd (save [] (1000, 1001) post1)) (2000, 2001) post2))
    = Some "test-post-2001".
Proof.
  destruct (slugs_of_equal_titles [] (1000, 1001) (2000, 2001) post1 post2)
    as (_ & Hq2 & _ & _ & _ & _).
  - by vm_compute.
  - reflexivity.
  - reflexivity.
  - reflexivity.
  - by vm_compute.
  - intros r Hr. by apply elem_of_nil in Hr.
  - split; [reflexivity|exact Hq2].
Defined.

(** When the collection already holds the derived slug and both saves
    read the same clock value, the two new posts get the same slug. *)
Example same_clock_same_slug :
  let earlier := fst (save [] (1000, 1001) (new_post "a0" "Test Post" "This is the first post content.")) in
  slug (fst (save [earlier] (2000, 2001) post1))
  = slug (fst (save (snd (save [earlier] (2000, 2001) post1)) (2000, 2001) post2)).
Proof. by vm_compute. Qed.

End PipelineOnReference.

(** * Further properties *)

(** ** TokenCodec: the lifetime of an issued token *)

Section TokenLifetime.
Context `{JwtLaws} `{Env} `{EcmaScript}.

Lemma generateToken_decodes user clock ttl token :
  timespan JWT_EXPIRES_IN = Some ttl →
  generateToken user clock = Ok token →
  jwt_decode token
  = Ok (Some (stamped (issued_payload user) issue_options clock ttl)).
Proof.
  intros Httl Hgen.
  eapply decode_sign;
    [by apply generateToken_inv | done | apply issued_payload_unregistered].
Qed.

Lemma verifyToken_refuses_expired user clock clock' ttl token :
  timespan JWT_EXPIRES_IN = Some ttl →
  generateToken user clock = Ok token →
  seconds clock + ttl ≤ seconds clock' →
  verifyToken token clock' = Throw "Invalid token".
Proof.
  intros Httl Hgen%generateToken_inv Hclock. unfold verifyToken.
  destruct (verify_expired _ _ _ _ ttl _ clock' Hgen Httl
              (issued_payload_unregistered user) Hclock) as [msg ->].
  done.
Qed.

(** X1. A token issued by [generateToken] verifies to its stamped payload
    at every clock reading before its expiry second, and is refused with
    [Invalid token] from that second on. *)
Theorem verifyToken_until_expiry user clock clock' ttl token :
  timespan JWT_EXPIRES_IN = Some ttl →
  generateToken user clock = Ok token →
  (seconds clock' < seconds clock + ttl →
   verifyToken token clock'
   = Ok (stamped (issued_payload user) issue_options clock ttl))
  ∧ (seconds clock + ttl ≤ seconds clock' →
     verifyToken token clock' = Throw "Invalid token").
Proof.
  intros Httl Hgen. split; intros Hclock.
  - apply generateToken_inv in Hgen. unfold verifyToken.
    erewrite verify_sign;
      [done | done | done | apply issued_payload_unregistered | done].
  - by apply (verifyToken_refuses_expired user clock clock' ttl).
Qed.

(** X2. [isTokenExpired] reports an issued token as expired exactly when
    its expiry second lies before the current second; at the expiry
    second itself it answers false although [verifyToken] already refuses
    the token. *)
Theorem isTokenExpired_issued user clock clock' ttl token :
  timespan JWT_EXPIRES_IN = Some ttl →
  generateToken user clock = Ok token →
  seconds clock + ttl ≠ 0 →
  (isTokenExpired token clock' = true ↔ seconds clock + ttl < seconds clock')
  ∧ (seconds clock' = seconds clock + ttl →
     isTokenExpired token clock' = false
     ∧ verifyToken token clock' = Throw "Invalid token").
Proof.
  intros Httl Hgen Hexp.
  assert (isTokenExpired token clock'
          = (seconds clock + ttl <? seconds clock')) as Hvalue.
  { unfold isTokenExpired.
    rewrite (generateToken_decodes user clock ttl token Httl Hgen). simpl.
    rewrite stamped_exp. simpl.
    destruct (Z.eqb_spec (seconds clock + ttl) 0); [done|]. done. }
  split.
  - rewrite Hvalue. apply Z.ltb_lt.
  - intros Hnow. split.
    + rewrite Hvalue. apply Z.ltb_ge. lia.
    + apply (verifyToken_refuses_expired user clock clock' ttl token Httl Hgen).
      lia.
Qed.

(** X3. For an issued token with a positive expiry inside the range of
    dates, [getTokenExpiration] is the date of the expiry second. *)
Theorem getTokenExpiration_issued user clock ttl token :
  timespan JWT_EXPIRES_IN = Some ttl →
  generateToken user clock = Ok token →
  0 < seconds clock + ttl ≤ 8640000000000 →
  getTokenExpiration token = Some (ValidDate ((seconds clock + ttl) * 1000)).
Proof.
  intros Httl Hgen Hrange. unfold getTokenExpiration.
  rewrite (generateToken_decodes user clock ttl token Httl Hgen). simpl.
  rewrite stamped_exp. simpl.
  destruct (Z.eqb_spec (seconds clock + ttl) 0); [lia|]. simpl.
  unfold new_Date.
  destruct (Z.leb_spec (Z.abs ((seconds clock + ttl) * 1000)) 8640000000000000);
    [done|lia].
Qed.

(** X4. [decodeToken] reads an issued token at any time, whatever the
    clock: the identity claims of the user, the issue second as [iat], the
    expiry as [exp], and the fixed issuer and audience. *)
Theorem decodeToken_issued user clock ttl token :
  timespan JWT_EXPIRES_IN = Some ttl →
  generateToken user clock = Ok token →
  ∃ decoded,
    decodeToken token = Ok (Some decoded)
    ∧ decoded !! "id" = user !! "_id"
    ∧ decoded !! "email" = user !! "email"
    ∧ decoded !! "username" = user !! "username"
    ∧ decoded !! "role" = user !! "role"
    ∧ decoded !! "iat" = Some (JNum (seconds clock))
    ∧ decoded !! "exp" = Some (JNum (seconds clock + ttl))
    ∧ decoded !! "iss" = Some (JStr "mern-testing-app")
    ∧ decoded !! "aud" = Some (JStr "mern-testing-users").
Proof.
  intros Httl Hgen. eexists. split.
  { unfold decodeToken.
    by rewrite (generateToken_decodes user clock ttl token Httl Hgen). }
  rewrite !stamped_other by not_listed.
  rewrite issued_payload_id, issued_payload_email, issued_payload_username,
    issued_payload_role, stamped_exp.
  unfold stamped. by simplify_map_eq.
Qed.

End TokenLifetime.

Section TokenExpirationFacts.
Context `{Jwt} `{EcmaScript}.

(** X5. [getTokenExpiration] and [isTokenExpired] agree on every token and
    at every clock reading: where the former returns [null] the latter
    answers true, and where the former returns a valid date the latter
    answers true exactly when that date lies before the current second. *)
Theorem getTokenExpiration_agrees (token : string) (clock : Z) :
  (getTokenExpiration token = None → isTokenExpired token clock = true)
  ∧ (∀ ms, getTokenExpiration token = Some (ValidDate ms) →
       (isTokenExpired token clock = true ↔ ms < seconds clock * 1000)).
Proof.
  unfold getTokenExpiration, isTokenExpired.
  destruct (jwt_decode token) as [[d|]|]; simpl; [|done..].
  destruct (truthy (d !! "exp")); simpl; [|done].
  split; [done|]. intros ms. unfold js_lt.
  destruct (ToNumber (d !! "exp")) as [k|]; simpl; [|done].
  unfold new_Date. case_match; [|done]. intros [= <-].
  rewrite Z.ltb_lt. lia.
Qed.

End TokenExpirationFacts.

(** ** AccessGate: the other middlewares *)

Section AccessGateFacts.
Context `{Jwt} `{Env} `{UserModel}.

Lemma extract_needs_text h token :
  extractTokenFromHeader h = Ok token → has_text h = true.
Proof. destruct h as [[|c s]|]; simpl; done. Qed.

(** X6. [optionalAuth] does what [authenticate] does on every request
    that [authenticate] hands on, and hands the request on unchanged
    where [authenticate] answers. *)
Theorem optionalAuth_agrees req clock :
  optionalAuth req clock
  = match authenticate req clock with
    | Next attached => Next attached
    | Respond _ _ => Next req
    end.
Proof.
  rewrite authenticate_stages. unfold optionalAuth, AUTHENTICATION_FAILED.
  destruct (extractTokenFromHeader (header req "Authorization"))
    as [token|msg] eqn:Hx.
  - rewrite (extract_needs_text _ _ Hx). simpl.
    destruct (verifyToken token clock) as [decoded|]; simpl; [|done].
    destruct (User_findById _) as [[u|]|]; simpl; [|done|done].
    by destruct (truthy (u !! "isActive")).
  - by destruct (has_text (header req "Authorization")).
Qed.

(** X7. [authenticate] hands a request on only in one way: the header
    holds a bearer token, the token verifies, the [User] model finds a
    document for the [id] claim, that document is active, and the request
    handed on carries exactly that document and that token. *)
Theorem authenticate_passes req clock attached :
  authenticate req clock = Next attached →
  ∃ token decoded u,
    extractTokenFromHeader (header req "Authorization") = Ok token
    ∧ verifyToken token clock = Ok decoded
    ∧ User_findById (decoded !! "id") = Ok (Some u)
    ∧ truthy (u !! "isActive") = true
    ∧ attached = {| header := header req; user := Some u; token := Some token |}.
Proof.
  rewrite authenticate_stages. unfold AUTHENTICATION_FAILED.
  destruct (extractTokenFromHeader _) as [token|]; [|done].
  destruct (verifyToken token clock) as [decoded|] eqn:Hv; [|done].
  destruct (User_findById _) as [[u|]|] eqn:Hu; [|done|done].
  destruct (truthy (u !! "isActive")) eqn:Ha; [|done].
  intros [= <-]. by exists token, decoded, u.
Qed.

(** X8. [optionalAuth] never answers: it always hands a request on,
    either the one it received or that one with an active principal and
    its verified token attached. *)
Theorem optionalAuth_never_answers req clock :
  optionalAuth req clock = Next req
  ∨ ∃ u token,
      optionalAuth req clock
      = Next {| header := header req; user := Some u; token := Some token |}
      ∧ truthy (u !! "isActive") = true
      ∧ extractTokenFromHeader (header req "Authorization") = Ok token.
Proof.
  unfold optionalAuth.
  destruct (has_text (header req "Authorization")); simpl; [|by left].
  destruct (extractTokenFromHeader _) as [token|] eqn:Hx; simpl; [|by left].
  destruct (verifyToken token clock) as [decoded|]; simpl; [|by left].
  destruct (User_findById _) as [[u|]|]; simpl; [|by left..].
  destruct (truthy (u !! "isActive")) eqn:Ha; simpl; [|by left].
  right. by exists u, token.
Qed.

End AccessGateFacts.

Lemma authorize_cases roles req :
  authorize roles req
  = match user req with
    | None => Respond 401 "Authentication required"
    | Some u =>
        if includes (role_list roles) (u !! "role") then Next req
        else Respond 403 "Insufficient permissions"
    end.
Proof.
  unfold authorize, role_list. destruct (user req) as [u|]; [|done].
  by destruct (includes _ _).
Qed.

(** X9. [authorize] hands on exactly the requests whose principal has a
    text role among the allowed ones, and it hands them on unchanged;
    hence allowing more roles never turns a pass into a refusal, and every
    request that passes [requireAdmin] passes [requireModerator]. *)
Theorem authorize_passes roles req :
  (∀ attached, authorize roles req = Next attached ↔
     attached = req
     ∧ ∃ u r, user req = Some u ∧ u !! "role" = Some (JStr r)
              ∧ r ∈ role_list roles)
  ∧ (∀ roles', role_list roles ⊆ role_list roles' →
       authorize roles req = Next req → authorize roles' req = Next req)
  ∧ (requireAdmin req = Next req → requireModerator req = Next req).
Proof.
  assert (∀ roles0 attached, authorize roles0 req = Next attached ↔
            attached = req
            ∧ ∃ u r, user req = Some u ∧ u !! "role" = Some (JStr r)
                     ∧ r ∈ role_list roles0) as Hpass.
  { intros roles0 attached. rewrite authorize_cases.
    destruct (user req) as [u|].
    - unfold includes. destruct (u !! "role") as [[| | |r]|] eqn:Hr;
        try (split; [done|intros (_ & ? & ? & [= <-] & ? & _); congruence]).
      case_bool_decide as Hin.
      + split; [intros [= <-]; eauto 6|by intros [-> _]].
      + split; [done|]. intros (_ & ? & ? & [= <-] & Hr' & ?).
        rewrite Hr in Hr'. by injection Hr' as <-.
    - split; [done|]. by intros (_ & ? & ? & [=] & _). }
  split; [apply Hpass|]. split.
  - intros roles' Hsub [_ (u & r & Hu & Hr & Hin)]%Hpass.
    apply Hpass. split; [done|]. exists u, r. auto.
  - unfold requireAdmin, requireModerator.
    intros [_ (u & r & Hu & Hr & Hin)]%Hpass.
    apply Hpass. split; [done|]. exists u, r. split; [done|]. split; [done|].
    simpl in *. apply list_elem_of_singleton in Hin as ->. by left.
Qed.

Section Chain.
Context `{Jwt} `{Env} `{UserModel}.

(** X10. On a request that [authenticate] hands on, [authorize] never
    answers 401: it hands the request on when the role of the attached
    document is allowed and answers 403 otherwise. *)
Theorem authorize_after_authenticate req clock attached roles :
  authenticate req clock = Next attached →
  ∃ u, user attached = Some u
       ∧ authorize roles attached
         = if includes (role_list roles) (u !! "role") then Next attached
           else Respond 403 "Insufficient permissions".
Proof.
  rewrite authenticate_stages. unfold AUTHENTICATION_FAILED.
  destruct (extractTokenFromHeader _) as [token|]; [|done].
  destruct (verifyToken token clock) as [decoded|]; [|done].
  destruct (User_findById _) as [[u|]|]; [|done..].
  destruct (truthy (u !! "isActive")); [|done].
  intros [= <-]. exists u. split; [done|]. by rewrite authorize_cases.
Qed.

End Chain.

(** X11. With a principal whose [_id] is the text [own], and a route
    parameter with text under the field, [requireSelfOrAdmin] decides on
    the parameter alone, whatever the body holds or whether there is one:
    an admin passes, the owner passes, everybody else gets 403
    [Access denied]. *)
Theorem requireSelfOrAdmin_by_parameter field r u own p :
  user (base r) = Some u →
  u !! "_id" = Some (JStr own) →
  params r !! default "userId" field = Some p → p ≠ "" →
  requireSelfOrAdmin field r
  = Ok (if bool_decide (u !! "role" = Some (JStr "admin")) || String.eqb own p
        then Next (base r) else Respond 403 "Access denied").
Proof.
  intros Hu Hid Hp Htext%truthy_text. unfold requireSelfOrAdmin.
  rewrite Hu, Hp, Htext, Hid. simpl.
  case_bool_decide; simpl; [done|].
  destruct (String.eqb_spec own p) as [->|Hne].
  - by rewrite bool_decide_true.
  - rewrite bool_decide_false; [done|]. by intros [= ->].
Qed.

(** X12. [requireSelfOrAdmin] answers 401 when no principal is attached,
    without reading the parameters or the body; with a principal, and
    neither a parameter with text under the field nor a body, it throws,
    also for an admin. *)
Theorem requireSelfOrAdmin_edges field r :
  (user (base r) = None →
   requireSelfOrAdmin field r = Ok (Respond 401 "Authentication required"))
  ∧ (is_Some (user (base r)) →
     has_text (params r !! default "userId" field) = false →
     body r = None →
     requireSelfOrAdmin field r = Throw "TypeError").
Proof.
  unfold requireSelfOrAdmin. split.
  - by intros ->.
  - intros [u ->] Hparam ->.
    destruct (params r !! default "userId" field) as [s|]; simpl in *; [|done].
    by rewrite Hparam.
Qed.

(** ** ContentPipeline: the other derived paths, and saving again *)

Section TrimFacts.
Import JsString.

Lemma prefix_length n s : (String.length (prefix n s) ≤ n)%nat.
Proof.
  unfold prefix. revert s. induction n as [|n IH]; intros [|c s]; simpl; try lia.
  specialize (IH s). lia.
Qed.

Lemma prefix_all n s : (String.length s ≤ n)%nat → prefix n s = s.
Proof.
  unfold prefix. revert s. induction n as [|n IH]; intros [|c s]; simpl;
    try done; try lia.
  intros Hn. rewrite IH; [done|lia].
Qed.

Lemma drop_space_length s : (String.length (drop_space s) ≤ String.length s)%nat.
Proof.
  induction s as [|c s IH]; simpl; [done|].
  destruct (is_space c); simpl; lia.
Qed.

Lemma trimEnd_length s : (String.length (trimEnd s) ≤ String.length s)%nat.
Proof.
  induction s as [|c s IH]; simpl; [done|].
  destruct (trimEnd s); [destruct (is_space c)|]; simpl in *; lia.
Qed.

Lemma trim_length s : (String.length (trim s) ≤ String.length s)%nat.
Proof.
  unfold trim. pose proof (trimEnd_length (drop_space s)).
  pose proof (drop_space_length s). lia.
Qed.

Lemma drop_space_empty s : drop_space s = "" → all_chars is_space s = true.
Proof.
  induction s as [|c s IH]; simpl; [done|].
  destruct (is_space c); [done|discriminate].
Qed.

Lemma trimEnd_empty s : trimEnd s = "" → all_chars is_space s = true.
Proof.
  induction s as [|c s IH]; simpl; [done|].
  destruct (trimEnd s); [|discriminate].
  destruct (is_space c); [auto|discriminate].
Qed.

Lemma drop_space_spaces s :
  all_chars is_space (drop_space s) = true → all_chars is_space s = true.
Proof.
  induction s as [|c s IH]; simpl; [done|].
  destruct (is_space c) eqn:Hc; simpl; [done|]. by rewrite Hc.
Qed.

Lemma trim_empty s : trim s = "" → all_chars is_space s = true.
Proof. intros Ht%trimEnd_empty. by apply drop_space_spaces. Qed.

Lemma toLowerCase_empty s : toLowerCase s = "" → s = "".
Proof. by destruct s. Qed.

(** A slug with a suffix has text, whatever it is appended to. *)
Lemma slug_setter_suffixed b t : slug_setter (b +:+ "-" +:+ t) ≠ "".
Proof.
  unfold slug_setter. intros Hs%toLowerCase_empty%trim_empty.
  rewrite all_chars_app in Hs. apply andb_true_iff in Hs as [_ Hs].
  change ("-" +:+ t) with (String "-" t) in Hs. done.
Qed.

End TrimFacts.

Section SavingAgain.
Context `{SlugifyData}.

Lemma hooks_excerpt db clocks p :
  excerpt (pre_save_unique_slug db (snd clocks) (pre_save_derive (fst clocks) p))
  = if negb (has_text (excerpt p)) && JsString.truthy (content p)
    then Some (JsString.trim (JsString.prefix 150 (content p)) +:+ "...")
    else excerpt p.
Proof.
  rewrite (frame_excerpt _ _ _ (frame_pre_save_unique_slug _ _ _)) by not_listed.
  unfold pre_save_derive.
  rewrite (frame_excerpt _ _ _ (frame_set_publishedAt _ _)),
    (frame_excerpt _ _ _ (frame_calculate_readingTime _)) by not_listed.
  pose proof (frame_generate_slug p) as Hf.
  unfold generate_excerpt.
  rewrite (frame_excerpt _ _ _ Hf), (frame_content _ _ _ Hf) by not_listed.
  destruct (negb (has_text (excerpt p)) && JsString.truthy (content p));
    [done|].
  apply (frame_excerpt _ _ _ Hf). not_listed.
Qed.

(** X13. A save keeps an excerpt that has text, and keeps whatever is
    there when the content is empty. Otherwise it derives the excerpt: the
    first 150 characters of the content, trimmed, followed by three dots,
    hence at most 153 characters; the dots are appended also when the
    content has at most 150 characters and nothing is cut. *)
Theorem excerpt_on_save db clocks p :
  (has_text (excerpt p) = true ∨ content p = "" →
   excerpt (fst (save db clocks p)) = excerpt p)
  ∧ (has_text (excerpt p) = false → content p ≠ "" →
     ∃ e, excerpt (fst (save db clocks p)) = Some (e +:+ "...")
          ∧ e = JsString.trim (JsString.prefix 150 (content p))
          ∧ (String.length (e +:+ "...") ≤ 153)%nat
          ∧ ((String.length (content p) ≤ 150)%nat →
             e = JsString.trim (content p))).
Proof.
  saved_paths. rewrite hooks_excerpt. split.
  - intros [->| ->]; [done|]. by rewrite andb_false_r.
  - intros -> Htext%truthy_text. rewrite Htext. simpl.
    eexists. split; [done|]. split; [done|]. split.
    + rewrite app_length. simpl.
      pose proof (trim_length (JsString.prefix 150 (content p))).
      pose proof (prefix_length 150 (content p)). lia.
    + intros Hshort. by rewrite prefix_all.
Qed.

(** X14. A save that succeeds writes derived paths only: [_id], [title],
    [content], [status] and the three counters are what they were. The
    document that it writes still passes the validators, although the
    hooks run after validation: the excerpt that they derive is within
    the limit of the schema. *)
Theorem save_writes_derived_only db clocks p q db' :
  Document.save db clocks p = Ok (q, db') →
  _id q = _id p ∧ title q = title p ∧ content q = content p
  ∧ status q = status p
  ∧ viewCount q = viewCount p ∧ likeCount q = likeCount p
  ∧ commentCount q = commentCount p
  ∧ validates q = true.
Proof.
  intros [Hv Hq]%Document_save_ok.
  assert (q = fst (save db clocks p)) as -> by (by rewrite <- Hq).
  pose proof (frame_hooks db clocks p) as Hf.
  assert (title (fst (save db clocks p)) = title p) as Htitle.
  { saved_paths. apply (frame_title _ _ _ Hf). not_listed. }
  assert (content (fst (save db clocks p)) = content p) as Hcontent.
  { saved_paths. apply (frame_content _ _ _ Hf). not_listed. }
  destruct (save_counters db clocks p) as (Hviews & Hlikes & Hcomments).
  split_and!; try done.
  - saved_paths. apply (frame_id _ _ _ Hf).
  - saved_paths. apply (frame_status _ _ _ Hf). not_listed.
  - unfold validates in *. rewrite Htitle, Hcontent.
    apply andb_true_iff in Hv as [Hv Hexcerpt]. rewrite Hv, andb_true_l.
    saved_paths. rewrite hooks_excerpt. case_match; [|done]. simpl.
    apply Z.leb_le. rewrite app_length. simpl.
    pose proof (trim_length (JsString.prefix 150 (content p))).
    pose proof (prefix_length 150 (content p)). lia.
Qed.

Lemma settled_not_modified q k : settled q → isModified k q = false.
Proof.
  intros [_ Hp _ _ _]. unfold isModified. rewrite Hp.
  by apply bool_decide_eq_false.
Qed.

Lemma assign_slug_same q : isNew q = false → assign_slug (slug q) q = q.
Proof.
  destruct q. simpl. intros ->. unfold assign_slug, mark. simpl.
  by rewrite bool_decide_false by (by intros []).
Qed.

Lemma assign_readingTime_same q :
  isNew q = false → assign_readingTime (readingTime q) q = q.
Proof.
  destruct q. simpl. intros ->. unfold assign_readingTime, mark. simpl.
  by rewrite bool_decide_false by (by intros []).
Qed.

Lemma persisted_settled q : settled q → persisted q = q.
Proof. intros [Hn Hp _ _ _]. destruct q. simpl in *. by subst. Qed.

Lemma settled_save q db clocks : settled q → fst (save db clocks q) = q.
Proof.
  intros Hq. pose proof Hq as [Hn Hp Hs He Hr].
  assert (generate_slug q = q) as Hg.
  { unfold generate_slug.
    destruct (has_text (slug q)) eqn:Htext; simpl; [done|].
    destruct (JsString.truthy (title q)) eqn:Htitle; [|done].
    destruct Hs as [?|[Ht|Hs]]; [done| |].
    - by rewrite Ht in Htitle.
    - rewrite <- Hs. by apply assign_slug_same. }
  assert (generate_excerpt q = q) as Hx.
  { unfold generate_excerpt. destruct He as [-> | ->]; [done|].
    by rewrite andb_false_r. }
  assert (calculate_readingTime q = q) as Hc.
  { unfold calculate_readingTime. destruct Hr as [-> |Hr]; [done|].
    unfold wordCount in Hr. rewrite <- Hr.
    destruct (JsString.truthy (content q)); [|done].
    by apply assign_readingTime_same. }
  assert (pre_save_derive (fst clocks) q = q) as Hd.
  { unfold pre_save_derive. rewrite Hg, Hx, Hc. unfold set_publishedAt.
    by rewrite (settled_not_modified q "status"). }
  unfold save. cbn [fst]. rewrite Hd. unfold pre_save_unique_slug.
  rewrite (settled_not_modified q "slug") by done.
  by apply persisted_settled.
Qed.

Lemma save_settled db clocks p : settled (fst (save db clocks p)).
Proof.
  pose proof (frame_hooks db clocks p) as Hf.
  split.
  - by saved_paths.
  - by saved_paths.
  - saved_paths. rewrite (frame_title _ _ _ Hf) by not_listed.
    set (d := pre_save_derive (fst clocks) p).
    assert (has_text (slug d) = true ∨ title p = ""
            ∨ slug d = Some (slug_setter (Slugify.slugify (title p)))) as Hd.
    { assert (frame ["excerpt"; "readingTime"; "publishedAt"; "isPublished"]
                (generate_slug p) d) as Hg.
      { unfold d, pre_save_derive.
        eapply (frame_trans ["excerpt"; "readingTime"]);
          [|apply frame_set_publishedAt].
        eapply (frame_trans ["excerpt"] ["readingTime"]);
          [apply frame_generate_excerpt | apply frame_calculate_readingTime]. }
      rewrite (frame_slug _ _ _ Hg) by not_listed.
      unfold generate_slug.
      destruct (has_text (slug p)) eqn:Htext; simpl; [by left|].
      destruct (JsString.truthy (title p)) eqn:Htitle; simpl.
      - by right; right.
      - right; left. by destruct (title p). }
    unfold pre_save_unique_slug. destruct (isModified "slug" d); [|done].
    destruct (findOne_slug_other db (slug d) (_id d)); [|done].
    left. cbn [slug assign_slug has_text].
    apply truthy_text, slug_setter_suffixed.
  - saved_paths. rewrite hooks_excerpt.
    rewrite (frame_content _ _ _ Hf) by not_listed.
    destruct (has_text (excerpt p)) eqn:Htext; simpl; [by left|].
    destruct (content p) as [|c s] eqn:Hc; simpl; [by right|].
    left. apply truthy_text. intros Heq%(f_equal String.length).
    rewrite app_length in Heq. simpl in Heq. lia.
  - rewrite save_readingTime.
    assert (content (fst (save db clocks p)) = content p) as ->.
    { saved_paths. apply (frame_content _ _ _ Hf). not_listed. }
    destruct (content p); [by left|by right].
Qed.

(** X15. Saving is idempotent: a document that [save] returned, saved
    again without an assignment, is returned as it is, whatever the
    collection holds and the clocks read at the second save. *)
Theorem save_again db clocks db' clocks' p :
  let q := fst (save db clocks p) in
  save db' clocks' q = (q, upsert q db').
Proof.
  intros q.
  assert (fst (save db' clocks' q) = q) as Hq
    by apply settled_save, save_settled.
  rewrite <- Hq at 2 3. unfold save. by cbn [fst].
Qed.

End SavingAgain.

Section SlugStability.
Context `{SlugifyData}.

Lemma edit_keeps_slug p e :
  writes_slug e = false →
  slug (apply_edit p e) = slug p
  ∧ isModified "slug" (apply_edit p e) = isModified "slug" p.
Proof.
  destruct e; try done; intros _; (split; [done|]);
    unfold isModified; simpl; by apply isModified_mark_other.
Qed.

Lemma edits_keep_slug es p :
  Forall (λ e, writes_slug e = false) es →
  slug (foldl apply_edit p es) = slug p
  ∧ isModified "slug" (foldl apply_edit p es) = isModified "slug" p.
Proof.
  intros Hes. revert p. induction Hes as [|e es He _ IH]; intros p; [done|].
  simpl. destruct (IH (apply_edit p e)) as [-> ->].
  by apply edit_keeps_slug.
Qed.

Lemma save_keeps_slug db clocks p :
  has_text (slug p) = true → isModified "slug" p = false →
  slug (fst (save db clocks p)) = slug p.
Proof.
  intros Htext Hmod. saved_paths.
  assert (generate_slug p = p) as Hg.
  { unfold generate_slug. by rewrite Htext. }
  assert (frame ["excerpt"; "readingTime"; "publishedAt"; "isPublished"]
            p (pre_save_derive (fst clocks) p)) as Hf.
  { unfold pre_save_derive. rewrite Hg.
    eapply (frame_trans ["excerpt"; "readingTime"]);
      [|apply frame_set_publishedAt].
    eapply (frame_trans ["excerpt"] ["readingTime"]);
      [apply frame_generate_excerpt | apply frame_calculate_readingTime]. }
  unfold pre_save_unique_slug.
  rewrite (frame_isModified _ _ _ Hf) by not_listed. fold (isModified "slug" p).
  rewrite Hmod. apply (frame_slug _ _ _ Hf). not_listed.
Qed.

(** X16. A written document whose slug has text keeps its slug, and so
    its [url], through any assignments followed by a save, as long as none
    of them assigns the slug: neither a new title nor a collision in the
    collection changes it. *)
Theorem slug_outlives_edits q st :
  isNew q = false → modifiedPaths q = ∅ → has_text (slug q) = true →
  Forall (λ e, writes_slug e = false) (edits st) →
  slug (save_after q st) = slug q ∧ url (save_after q st) = url q.
Proof.
  intros Hn Hp Htext Hes.
  destruct (edits_keep_slug (edits st) q Hes) as [Hs Hm].
  assert (slug (save_after q st) = slug q) as Hslug.
  { unfold save_after. rewrite <- Hs. apply save_keeps_slug.
    - by rewrite Hs.
    - rewrite Hm. unfold isModified. rewrite Hp. by apply bool_decide_eq_false. }
  split; [done|]. unfold url. by rewrite Hslug.
Qed.

End SlugStability.

Section CounterCalls.
Context `{SlugifyData}.

(** X17. Where the calls succeed and the counters are integers from 0 to
    [2^53]: a decrement undoes an increment, for likes and for comments;
    an increment does not undo a decrement at zero, which leaves the
    counter at one; [incrementViewCount] adds exactly one. At [2^53] it
    adds nothing: the sum is rounded back. *)
Theorem counter_calls_compose db1 c1 db2 c2 p q r dbq dbr :
  0 ≤ likeCount p < 2 ^ 53 → 0 ≤ commentCount p < 2 ^ 53 →
  (incrementLikeCount db1 c1 p = Ok (q, dbq) →
   decrementLikeCount db2 c2 q = Ok (r, dbr) → likeCount r = likeCount p)
  ∧ (incrementCommentCount db1 c1 p = Ok (q, dbq) →
     decrementCommentCount db2 c2 q = Ok (r, dbr) →
     commentCount r = commentCount p)
  ∧ (likeCount p = 0 → decrementLikeCount db1 c1 p = Ok (q, dbq) →
     incrementLikeCount db2 c2 q = Ok (r, dbr) → likeCount r = 1)
  ∧ (commentCount p = 0 → decrementCommentCount db1 c1 p = Ok (q, dbq) →
     incrementCommentCount db2 c2 q = Ok (r, dbr) → commentCount r = 1)
  ∧ (0 ≤ viewCount p < 2 ^ 53 → incrementViewCount db1 c1 p = Ok (q, dbq) →
     viewCount q = viewCount p + 1)
  ∧ (viewCount p = 2 ^ 53 → incrementViewCount db1 c1 p = Ok (q, dbq) →
     viewCount q = viewCount p).
Proof.
  intros Hl Hc. split_and!.
  - intros Hinc%incrementLikeCount_value Hdec%decrementLikeCount_value.
    rewrite Hdec, Hinc. unfold js_add, js_sub.
    rewrite (double_safe (likeCount p + 1)) by lia.
    rewrite (proj2 (Z.ltb_lt 0 (likeCount p + 1))) by lia.
    rewrite double_safe by lia. lia.
  - intros Hinc%incrementCommentCount_value Hdec%decrementCommentCount_value.
    rewrite Hdec, Hinc. unfold js_add, js_sub.
    rewrite (double_safe (commentCount p + 1)) by lia.
    rewrite (proj2 (Z.ltb_lt 0 (commentCount p + 1))) by lia.
    rewrite double_safe by lia. lia.
  - intros H0 Hdec%decrementLikeCount_value Hinc%incrementLikeCount_value.
    by rewrite Hinc, Hdec, H0.
  - intros H0 Hdec%decrementCommentCount_value
      Hinc%incrementCommentCount_value.
    by rewrite Hinc, Hdec, H0.
  - intros Hv ->%incrementViewCount_value. unfold js_add.
    apply double_safe. lia.
  - intros Hv ->%incrementViewCount_value. by rewrite Hv.
Qed.

End CounterCalls.

(** ** Categories, the error handler, the routes *)

Section CategorySlugs.
Context `{SlugifyData}.

(** X18. Saving a category keeps its [_id] and [name]. A category
    without slug and with a name gets the slug that [slugify] derives
    from the name, followed by a hyphen and the clock reading when the
    collection holds another category with the derived slug. A slug that
    has text and was not assigned since the last save is kept. *)
Theorem category_slug_on_save db clock c :
  Category._id (Category.save db clock c) = Category._id c
  ∧ Category.name (Category.save db clock c) = Category.name c
  ∧ (Category.slug c = None → Category.name c ≠ "" →
     let b := Slugify.slugify (Category.name c) in
     Category.slug (Category.save db clock c)
     = if Category.findOne_slug_other db (Some b) (Category._id c) is Some _
       then Some (b +:+ "-" +:+ pretty clock) else Some b)
  ∧ (has_text (Category.slug c) = true →
     Category.isModified "slug" c = false →
     Category.slug (Category.save db clock c) = Category.slug c).
Proof.
  unfold Category.save, Category.persisted.
  cbn [Category._id Category.name Category.slug].
  split_and!.
  - unfold Category.pre_save_unique_slug, Category.pre_save_slug.
    by repeat case_match.
  - unfold Category.pre_save_unique_slug, Category.pre_save_slug.
    by repeat case_match.
  - intros Hslug Hname%truthy_text.
    unfold Category.pre_save_slug. rewrite Hslug, Hname.
    cbn [has_text negb andb].
    rewrite slug_setter_plain by apply plain_slugify.
    set (b := Slugify.slugify (Category.name c)).
    unfold Category.pre_save_unique_slug, Category.isModified.
    cbn [Category.assign_slug Category.modifiedPaths Category.slug Category._id].
    rewrite Hslug. rewrite (bool_decide_true (None ≠ Some b)) by done.
    rewrite orb_true_r.
    rewrite bool_decide_true by (apply elem_of_union_l; by apply elem_of_singleton).
    destruct (Category.findOne_slug_other db (Some b) (Category._id c));
      [|done].
    cbn [print_slug default from_option id].
    rewrite slug_setter_plain; [done|].
    apply plain_app; [apply plain_slugify|].
    apply (plain_app "-"); [done|apply plain_pretty].
  - intros Htext Hmod. unfold Category.pre_save_slug. rewrite Htext.
    cbn [negb andb]. unfold Category.pre_save_unique_slug. by rewrite Hmod.
Qed.

End CategorySlugs.

Section ErrorHandlerFacts.
Import ErrorHandler.
Context `{Env}.

Lemma or_number_pos a b : b ≠ 0 → or_number a b ≠ 0.
Proof.
  intros Hb. unfold or_number. destruct a as [n|]; [|done].
  destruct (n =? 0) eqn:Hn; [done|]. by apply Z.eqb_neq.
Qed.

Lemma or_else_some a b : b ≠ "" → or_else a b ≠ "".
Proof.
  intros Hb. unfold or_else. destruct a as [[|c s]|]; done.
Qed.

(** X19. [errorHandler] throws instead of answering in exactly two
    cases: the error has code 11000 and no [keyValue], or it is named
    [ValidationError] and has no [errors]. *)
Theorem errorHandler_throws err :
  (∃ m, errorHandler err = Throw m) ↔
  (code err = Some (JNum 11000) ∧ keyValue err = None)
  ∨ (name err = Some "ValidationError" ∧ errors err = None).
Proof.
  unfold errorHandler, is_text. split.
  - intros [m Hm].
    destruct (bool_decide (code err = Some (JNum 11000))) eqn:Hcode.
    + apply bool_decide_eq_true in Hcode.
      destruct (keyValue err) eqn:Hkey; [|by left].
      simpl in Hm.
      destruct (bool_decide (name err = Some "ValidationError")) eqn:Hname;
        [|done].
      apply bool_decide_eq_true in Hname.
      destruct (errors err); [done|by right].
    + simpl in Hm.
      destruct (bool_decide (name err = Some "ValidationError")) eqn:Hname;
        [|done].
      apply bool_decide_eq_true in Hname.
      destruct (errors err); [done|by right].
  - intros [[Hcode Hkey]|[Hname Herrors]].
    + rewrite (bool_decide_true _ Hcode), Hkey. by eexists.
    + rewrite (bool_decide_true (name err = _) Hname), Herrors.
      destruct (bool_decide (code err = Some (JNum 11000))); simpl;
        [destruct (keyValue err)|]; by eexists.
Qed.

(** X20. Whenever [errorHandler] answers, the error text is not empty
    and the status is not zero; the stack and the details of the error
    are sent exactly when [NODE_ENV] is [development]. *)
Theorem errorHandler_answers err resp :
  errorHandler err = Ok resp →
  res_error resp ≠ "" ∧ res_status resp ≠ 0
  ∧ (getenv "NODE_ENV" ≠ Some "development" → res_debug resp = None)
  ∧ (getenv "NODE_ENV" = Some "development" →
     res_debug resp = Some (stack err, err)).
Proof.
  unfold errorHandler.
  destruct (if bool_decide (code err = Some (JNum 11000)) then _ else _)
    as [w1|]; simpl; [|done].
  destruct (if is_text (name err) "ValidationError" then _ else _)
    as [w2|]; simpl; [|done].
  intros [= <-]. simpl. split_and!.
  - by apply or_else_some.
  - by apply or_number_pos, or_number_pos.
  - intros Henv. unfold is_text. by rewrite bool_decide_false.
  - intros Henv. unfold is_text. by rewrite bool_decide_true.
Qed.

(** X21. The rules of [errorHandler] are applied in order and the last
    one that matches decides: an error with status 429 is answered with
    429 and [Too many requests], whatever else it is. An error that no
    rule matches is answered with its own [statusCode], or 500 when that
    is absent or zero, and its own message, or [Server Error] when that
    is absent or empty. *)
Theorem errorHandler_rate_limit_and_default err resp :
  errorHandler err = Ok resp →
  (status err = Some (JNum 429) →
   res_status resp = 429 ∧ res_error resp = "Too many requests")
  ∧ (name err ∉ [Some "CastError"; Some "ValidationError";
                 Some "JsonWebTokenError"; Some "TokenExpiredError"] →
     code err ∉ [Some (JNum 11000); Some (JStr "LIMIT_FILE_SIZE");
                 Some (JStr "LIMIT_UNEXPECTED_FILE")] →
     type err ≠ Some "entity.parse.failed" →
     status err ≠ Some (JNum 429) →
     res_status resp = or_number (statusCode err) 500
     ∧ res_error resp = or_else (message err) "Server Error").
Proof.
  unfold errorHandler. intros Hresp. split.
  - intros Hstatus. rewrite (bool_decide_true _ Hstatus) in Hresp.
    destruct (if bool_decide (code err = Some (JNum 11000)) then _ else _)
      as [w1|]; simpl in Hresp; [|done].
    destruct (if is_text (name err) "ValidationError" then _ else _)
      as [w2|]; simpl in Hresp; [|done].
    by injection Hresp as <-.
  - intros Hname Hcode Htype Hstatus. revert Hresp. unfold is_text.
    assert (∀ v, v ∈ [Some "CastError"; Some "ValidationError";
                      Some "JsonWebTokenError"; Some "TokenExpiredError"] →
                 bool_decide (name err = v) = false) as Hn.
    { intros v Hv. apply bool_decide_eq_false. by intros <-. }
    assert (∀ v, v ∈ [Some (JNum 11000); Some (JStr "LIMIT_FILE_SIZE");
                      Some (JStr "LIMIT_UNEXPECTED_FILE")] →
                 bool_decide (code err = v) = false) as Hc.
    { intros v Hv. apply bool_decide_eq_false. by intros <-. }
    rewrite !Hn, !Hc by (repeat first [by left | right]).
    rewrite (bool_decide_false _ Htype), (bool_decide_false _ Hstatus).
    simpl. intros [= <-]. simpl. split; [|done].
    unfold or_number. destruct (statusCode err) as [n|]; [|done].
    destruct (n =? 0); done.
Qed.

(** X22. A [ValidationError] that no later rule matches is answered
    with 400 and the messages of its [errors] joined by a comma and a
    space; when that text is empty, for instance when [errors] holds
    nothing, the answer reads [Server Error], still with 400. *)
Theorem errorHandler_validation err vals :
  name err = Some "ValidationError" → errors err = Some vals →
  (code err = Some (JNum 11000) → is_Some (keyValue err)) →
  code err ∉ [Some (JStr "LIMIT_FILE_SIZE"); Some (JStr "LIMIT_UNEXPECTED_FILE")] →
  type err ≠ Some "entity.parse.failed" →
  status err ≠ Some (JNum 429) →
  ∃ resp, errorHandler err = Ok resp
    ∧ res_status resp = 400
    ∧ res_error resp
      = or_else (Some (JsString.join ", " (default "" <$> vals))) "Server Error".
Proof.
  intros Hname Herrors Hkey Hcode Htype Hstatus.
  unfold errorHandler, is_text. rewrite Hname, Herrors.
  rewrite (bool_decide_true (Some "ValidationError" = Some "ValidationError"))
    by done.
  rewrite !(bool_decide_false (Some "ValidationError" = _)) by done.
  rewrite (bool_decide_false (type err = _)) by done.
  rewrite (bool_decide_false (status err = _)) by done.
  rewrite (bool_decide_false (code err = Some (JStr "LIMIT_FILE_SIZE")))
    by (intros Heq; apply Hcode; rewrite Heq; by left).
  rewrite (bool_decide_false (code err = Some (JStr "LIMIT_UNEXPECTED_FILE")))
    by (intros Heq; apply Hcode; rewrite Heq; right; by left).
  destruct (bool_decide (code err = Some (JNum 11000))) eqn:H11000.
  - apply bool_decide_eq_true in H11000.
    destruct (Hkey H11000) as [keys ->]. simpl. by eexists.
  - simpl. by eexists.
Qed.

(** X23. The error that [notFound] hands on makes [errorHandler] answer
    404 with [Route not found - ] followed by the URL. On a request
    without a [validationErrors] method, [handleValidationErrors] throws;
    where the method exists, it hands on an error exactly when there are
    validation errors, and [errorHandler] answers that error with 400
    and [Validation failed]. *)
Theorem errorHandler_of_notFound originalUrl trace :
  (∃ resp, errorHandler (notFound originalUrl trace) = Ok resp
     ∧ res_status resp = 404
     ∧ res_error resp = "Route not found - " +:+ print_key originalUrl)
  ∧ handleValidationErrors None trace = Throw "TypeError"
  ∧ (∀ errors,
       ∃ handed, handleValidationErrors (Some errors) trace = Ok handed
         ∧ (is_Some handed ↔ errors = true)
         ∧ ∀ e, handed = Some e →
             ∃ resp, errorHandler e = Ok resp
               ∧ res_status resp = 400
               ∧ res_error resp = "Validation failed").
Proof.
  split; [|split].
  - eexists. split; [reflexivity|]. by simpl.
  - done.
  - intros [|]; eexists; (split; [reflexivity|]); split.
    + split; [done|by eexists].
    + intros e [= <-]. eexists. split; [reflexivity|]. by simpl.
    + split; [by intros [? [=]]|done].
    + by intros e [=].
Qed.

End ErrorHandlerFacts.

(** X24. The pagination of a listing, for a limit of at least one and
    a count that is not negative: [totalPages] is the least number of
    pages of [limit] items that hold [total] items; there is a next page
    exactly when items remain after the [skip] and the [limit] of this
    page, and a previous page exactly when something is skipped; an empty
    listing has no pages. *)
Theorem paginate_pages page limit total :
  1 ≤ limit → 0 ≤ total →
  let pg := paginate page limit total in
  0 ≤ totalPages pg
  ∧ limit * (totalPages pg - 1) < total ≤ limit * totalPages pg
  ∧ (hasNextPage pg = true ↔ skip page limit + limit < total)
  ∧ (hasPrevPage pg = true ↔ 0 < skip page limit)
  ∧ (total = 0 → totalPages pg = 0 ∧ hasNextPage pg = (page <? 0)).
Proof.
  intros Hlimit Htotal pg.
  destruct (ceil_div_spec total limit (ceil_div total limit)) as [Hspec _];
    [lia|].
  specialize (Hspec eq_refl).
  unfold pg, paginate, skip. cbn [totalPages hasNextPage hasPrevPage].
  split; [nia|]. split; [lia|]. split; [|split].
  - rewrite Z.ltb_lt. split; intros; nia.
  - rewrite Z.ltb_lt. split; intros; nia.
  - intros ->. assert (ceil_div 0 limit = 0) as -> by nia. done.
Qed.

(** X25. The checks of [PUT /api/users/:id] let an update through
    exactly when the user exists, the requester's [_id] prints, there is
    a body, and the requester is an admin, or owns the profile and the
    [role] property of the body is absent or falsy. The checks read no
    other property of the body. *)
Theorem update_user_checks_proceed found requester id body :
  update_user_checks found requester id body = Ok Proceed ↔
  is_Some found
  ∧ ∃ own b, toString (requester !! "_id") = Ok own ∧ body = Some b
      ∧ (requester !! "role" = Some (JStr "admin")
         ∨ (own = id ∧ truthy (b !! "role") = false)).
Proof.
  unfold update_user_checks. split.
  - destruct found as [u|]; [|done].
    destruct (toString (requester !! "_id")) as [own|]; simpl; [|done].
    destruct (String.eqb_spec own id) as [->|Hne]; simpl.
    + destruct body as [b|]; simpl; [|done].
      case_bool_decide as Hadmin; simpl.
      * rewrite andb_false_r. intros _. split; [done|]. exists id, b. auto.
      * destruct (truthy (b !! "role")) eqn:Hrole; simpl; [done|].
        intros _. split; [done|]. exists id, b. auto.
    + case_bool_decide as Hadmin; simpl; [|done].
      destruct body as [b|]; simpl; [|done]. rewrite andb_false_r.
      intros _. split; [done|]. exists own, b. auto.
  - intros [[u ->] (own & b & -> & -> & Hcase)]. simpl.
    destruct Hcase as [Hadmin|[-> Hrole]].
    + rewrite (bool_decide_true _ Hadmin). simpl. rewrite andb_false_r. simpl.
      by rewrite andb_false_r.
    + rewrite String.eqb_refl. simpl. by rewrite Hrole.
Qed.

(** ** The further properties on the data of the unit tests *)

Section FurtherOnReference.
Import Reference ReferenceFacts Samples.

Lemma verifyToken_until_expiry_witness :
  verifyToken issued 6000
  = Ok (stamped (issued_payload mockUser) issue_options 5000 604800)
  ∧ verifyToken issued 604805000 = Throw "Invalid token".
Proof.
  split.
  - destruct (verifyToken_until_expiry mockUser 5000 6000 604800 issued)
      as [Hlive _]; [reflexivity|reflexivity|].
    apply Hlive. by vm_compute.
  - destruct (verifyToken_until_expiry mockUser 5000 604805000 604800 issued)
      as [_ Hdead]; [reflexivity|reflexivity|].
    apply Hdead. by vm_compute.
Defined.

Lemma isTokenExpired_issued_witness :
  isTokenExpired issued 604805000 = false
  ∧ verifyToken issued 604805000 = Throw "Invalid token".
Proof.
  destruct (isTokenExpired_issued mockUser 5000 604805000 604800 issued)
    as [_ Hedge]; [reflexivity|reflexivity|by vm_compute|].
  apply Hedge. by vm_compute.
Defined.

Lemma getTokenExpiration_issued_witness :
  getTokenExpiration issued = Some (ValidDate ((seconds 5000 + 604800) * 1000)).
Proof.
  apply (getTokenExpiration_issued mockUser 5000 604800 issued).
  - reflexivity.
  - reflexivity.
  - by vm_compute.
Defined.

Lemma decodeToken_issued_witness :
  ∃ decoded,
    decodeToken issued = Ok (Some decoded)
    ∧ decoded !! "id" = mockUser !! "_id"
    ∧ decoded !! "email" = mockUser !! "email"
    ∧ decoded !! "username" = mockUser !! "username"
    ∧ decoded !! "role" = mockUser !! "role"
    ∧ decoded !! "iat" = Some (JNum (seconds 5000))
    ∧ decoded !! "exp" = Some (JNum (seconds 5000 + 604800))
    ∧ decoded !! "iss" = Some (JStr "mern-testing-app")
    ∧ decoded !! "aud" = Some (JStr "mern-testing-users").
Proof.
  apply (decodeToken_issued mockUser 5000 604800 issued).
  - reflexivity.
  - reflexivity.
Defined.

Lemma authenticate_issued :
  @authenticate _ _ (only_mockUser true) bearer_request 6000
  = Next attached_request.
Proof.
  rewrite authenticate_stages.
  assert (extractTokenFromHeader (header bearer_request "Authorization")
          = Ok issued) as -> by (by vm_compute).
  assert (verifyToken issued 6000
          = Ok (stamped (issued_payload mockUser) issue_options 5000 604800))
    as -> by (by vm_compute).
  reflexivity.
Qed.

Lemma authenticate_passes_witness :
  ∃ token decoded u,
    extractTokenFromHeader (header bearer_request "Authorization") = Ok token
    ∧ verifyToken token 6000 = Ok decoded
    ∧ @User_findById (only_mockUser true) (decoded !! "id") = Ok (Some u)
    ∧ truthy (u !! "isActive") = true
    ∧ attached_request
      = {| header := header bearer_request; user := Some u;
           token := Some token |}.
Proof.
  apply (@authenticate_passes _ _ (only_mockUser true) bearer_request 6000).
  exact authenticate_issued.
Defined.

Lemma authorize_after_authenticate_witness :
  ∃ u,
    user attached_request = Some u
    ∧ authorize (Some (Role "admin")) attached_request
      = if includes (role_list (Some (Role "admin"))) (u !! "role")
        then Next attached_request
        else Respond 403 "Insufficient permissions".
Proof.
  apply (@authorize_after_authenticate _ _ (only_mockUser true)
           bearer_request 6000).
  exact authenticate_issued.
Defined.

Lemma requireSelfOrAdmin_by_parameter_witness :
  requireSelfOrAdmin None own_resource = Ok (Next (base own_resource)).
Proof.
  apply (requireSelfOrAdmin_by_parameter None own_resource mockUser
           "507f1f77bcf86cd799439011" "507f1f77bcf86cd799439011").
  - reflexivity.
  - reflexivity.
  - reflexivity.
  - discriminate.
Defined.

Lemma slug_outlives_edits_witness :
  let q := fst (save [] (1000, 1001) post1) in
  let st := once [SetTitle "Another Title"; SetStatus published] 2000 [] in
  slug (save_after q st) = slug q ∧ url (save_after q st) = url q.
Proof.
  apply (slug_outlives_edits (fst (save [] (1000, 1001) post1))).
  - reflexivity.
  - reflexivity.
  - by vm_compute.
  - by repeat constructor.
Defined.

Lemma save_writes_derived_only_witness :
  ∃ q db', Document.save [] (1000, 1001) post1 = Ok (q, db')
           ∧ title q = title post1 ∧ validates q = true.
Proof.
  eexists _, _. split; [reflexivity|].
  destruct (save_writes_derived_only [] (1000, 1001) post1 _ _ eq_refl)
    as (_ & Htitle & _ & _ & _ & _ & _ & Hvalid).
  by split.
Defined.

Lemma counter_calls_compose_witness :
  incrementLikeCount [saved_draft] (2000, 2001) saved_draft = Ok liked_draft
  ∧ ∃ r dbr,
      decrementLikeCount (snd liked_draft) (3000, 3001) (fst liked_draft)
      = Ok (r, dbr)
      ∧ likeCount r = likeCount saved_draft.
Proof.
  split; [by vm_compute|]. eexists _, _. split; [reflexivity|].
  refine (proj1 (counter_calls_compose [saved_draft] (2000, 2001)
                   (snd liked_draft) (3000, 3001) saved_draft
                   (fst liked_draft) _ (snd liked_draft) _ _ _) _ _).
  - by vm_compute.
  - by vm_compute.
  - by vm_compute.
  - vm_compute. reflexivity.
Defined.

Lemma errorHandler_answers_witness :
  ErrorHandler.res_error no_route ≠ ""
  ∧ ErrorHandler.res_status no_route ≠ 0
  ∧ (getenv "NODE_ENV" ≠ Some "development" →
     ErrorHandler.res_debug no_route = None)
  ∧ (getenv "NODE_ENV" = Some "development" →
     ErrorHandler.res_debug no_route
     = Some (ErrorHandler.stack
               (ErrorHandler.notFound (Some "/api/nothing") "at notFound"),
             ErrorHandler.notFound (Some "/api/nothing") "at notFound")).
Proof.
  apply (errorHandler_answers
           (ErrorHandler.notFound (Some "/api/nothing") "at notFound")).
  reflexivity.
Defined.

Lemma errorHandler_rate_limit_and_default_witness :
  ErrorHandler.res_status no_route = 404
  ∧ ErrorHandler.res_error no_route = "Route not found - /api/nothing".
Proof.
  destruct (errorHandler_rate_limit_and_default
              (ErrorHandler.notFound (Some "/api/nothing") "at notFound")
              no_route) as [_ Hdefault]; [reflexivity|].
  apply Hdefault.
  - not_listed.
  - not_listed.
  - discriminate.
  - discriminate.
Defined.

Lemma errorHandler_validation_witness :
  ∃ resp, ErrorHandler.errorHandler two_validators = Ok resp
    ∧ ErrorHandler.res_status resp = 400
    ∧ ErrorHandler.res_error resp
      = or_else
          (Some (JsString.join ", "
                   (default "" <$> [Some "Title is required";
                                    Some "Content is required"])))
          "Server Error".
Proof.
  apply (errorHandler_validation two_validators).
  - reflexivity.
  - reflexivity.
  - discriminate.
  - not_listed.
  - discriminate.
  - discriminate.
Defined.

Lemma paginate_pages_witness :
  let pg := paginate 2 10 25 in
  0 ≤ totalPages pg
  ∧ 10 * (totalPages pg - 1) < 25 ≤ 10 * totalPages pg
  ∧ (hasNextPage pg = true ↔ skip 2 10 + 10 < 25)
  ∧ (hasPrevPage pg = true ↔ 0 < skip 2 10)
  ∧ (25 = 0 → totalPages pg = 0 ∧ hasNextPage pg = (2 <? 0)).
Proof.
  apply (paginate_pages 2 10 25); lia.
Defined.

End FurtherOnReference.
